(** * The lobby page of playlisto: a shallow embedding and its properties

    Source: [src/app/lobby/[id]/page.tsx], the React component [LobbyPage].

    The component is a view bound to a socket: it keeps local state
    ([useState]), registers listeners on the socket ([socket.on],
    [socket.once]), emits messages ([socket.emit]), shows blocking
    notifications ([alert]), navigates ([router.push]) and arms one timer
    ([setTimeout]).  The embedding keeps all of these:

    - the [useState] cells are the record [View];
    - the socket is a connection flag and the list of registered listeners,
      in registration order;
    - the pending [setTimeout] callbacks are a list of timers;
    - whatever leaves the component (emits, alerts, navigation, console
      output) is appended to a log of [Effect]s.

    A handler is a computation in the monad [M]: it reads and writes the
    [World] and appends to the log. *)

From Stdlib Require Import List String Bool ZArith Lia.
Import ListNotations.
Local Open Scope string_scope.
Local Open Scope Z_scope.

(** ** JavaScript truthiness

    The source tests values with [!x], [x || d] and [x && y].  A string is
    falsy exactly when it is empty; [null] and [undefined] are falsy; an
    object is truthy.  A nullable value is an [option], [None] standing for
    [null] or [undefined]. *)

Definition truthy (s : string) : bool := negb (s =? "")%string.

Definition isSome {A : Type} (o : option A) : bool :=
  match o with Some _ => true | None => false end.

(** [!!x] for [x : string | null]. *)
Definition truthyString (o : option string) : bool :=
  match o with Some s => truthy s | None => false end.

(** [x || d] on strings. *)
Definition orString (s d : string) : string := if truthy s then s else d.

(** ** Data model *)

(** [interface Player] (lines 12-17). *)
Module Player.
Record t : Type := make
  { id : string; name : string; isReady : bool; isHost : bool }.
End Player.

(** [interface Playlist] (lines 19-24); [imageUrl] is optional. *)
Module Playlist.
Record t : Type := make
  { id : string; name : string; tracks : Z; imageUrl : option string }.
End Playlist.

(** The payload of a [lobbyUpdate] event: a full snapshot.  The handler reads
    [lobby.players] and [lobby.spotifyPlaylist]; the latter is [None] when
    the field is missing, [null] or otherwise falsy. *)
Module Lobby.
Record t : Type := make
  { players : list Player.t; spotifyPlaylist : option Playlist.t }.
End Lobby.

(** One entry of the catalog response, as [handleSpotifyAuth] reads it
    (lines 112-119): every field it touches may be missing. *)
Module Item.
Record tracksObject : Type := makeTracks { total : option Z }.
Record image : Type := makeImage { url : option string }.
Record t : Type := make
  { id : string;
    name : option string;
    tracks : option tracksObject;
    images : option (list (option image)) }.
End Item.

(** The [useState] cells of [LobbyPage] (lines 35-44). *)
Record View : Type := mkView
  { players : list Player.t;
    isReady : bool;
    spotifyToken : option string;
    playlists : list Playlist.t;
    selectedPlaylist : option Playlist.t;
    showPlaylistDialog : bool;
    isStarting : bool }.

(** The state of a freshly mounted component. *)
Definition initialView : View :=
  {| players := [];
     isReady := false;
     spotifyToken := None;
     playlists := [];
     selectedPlaylist := None;
     showPlaylistDialog := false;
     isStarting := false |}.

(** The state setters returned by [useState]. *)
Definition setPlayers (x : list Player.t) (v : View) : View :=
  mkView x (isReady v) (spotifyToken v) (playlists v) (selectedPlaylist v)
         (showPlaylistDialog v) (isStarting v).
Definition setIsReady (x : bool) (v : View) : View :=
  mkView (players v) x (spotifyToken v) (playlists v) (selectedPlaylist v)
         (showPlaylistDialog v) (isStarting v).
Definition setSpotifyToken (x : option string) (v : View) : View :=
  mkView (players v) (isReady v) x (playlists v) (selectedPlaylist v)
         (showPlaylistDialog v) (isStarting v).
Definition setPlaylists (x : list Playlist.t) (v : View) : View :=
  mkView (players v) (isReady v) (spotifyToken v) x (selectedPlaylist v)
         (showPlaylistDialog v) (isStarting v).
Definition setSelectedPlaylist (x : option Playlist.t) (v : View) : View :=
  mkView (players v) (isReady v) (spotifyToken v) (playlists v) x
         (showPlaylistDialog v) (isStarting v).
Definition setShowPlaylistDialog (x : bool) (v : View) : View :=
  mkView (players v) (isReady v) (spotifyToken v) (playlists v)
         (selectedPlaylist v) x (isStarting v).
Definition setIsStarting (x : bool) (v : View) : View :=
  mkView (players v) (isReady v) (spotifyToken v) (playlists v)
         (selectedPlaylist v) (showPlaylistDialog v) x.

(** ** The socket, the timers and the outside world *)

(** Messages the component sends ([socket.emit], client to server). *)
Inductive ClientMessage : Type :=
| JoinLobby (lobbyId playerName : string) (isHost : bool)
| ToggleReady (lobbyId : string)
| UpdatePlaylist (lobbyId playlistId playlistName : string)
| StartGame (lobbyId accessToken : string).

(** Events the server sends, with their payloads. *)
Inductive ServerEvent : Type :=
| LobbyUpdate (lobby : Lobby.t)
| GameStart (playlistId : string)
| GameStateUpdate
| Error (message : string).

(** Everything observable from outside the component, in order. *)
Inductive Effect : Type :=
| Emit (m : ClientMessage)
| Alert (message : string)
| RouterPush (url : string)
| ConsoleLog (text : string)
| ConsoleError (text : string).

(** The listener closures the component registers.  There are five in the
    source; each constructor stands for one of them, together with what the
    closure captured.
    - [OnLobbyUpdate], [OnGameStart], [OnError]: [socket.on] in the mount
      effect (lines 68, 77, 82);
    - [OnceGameStateUpdate], [OnceError]: [socket.once] in
      [handleStartGame] (lines 167, 173); the first captured
      [selectedPlaylist.id] and [spotifyToken] of its render. *)
Inductive Listener : Type :=
| OnLobbyUpdate
| OnGameStart
| OnError
| OnceGameStateUpdate (playlistId token : string)
| OnceError.

(** Whether the listener was registered with [once]. *)
Definition isOnce (l : Listener) : bool :=
  match l with
  | OnceGameStateUpdate _ _ | OnceError => true
  | _ => false
  end.

Inductive EventName : Type :=
| lobbyUpdate | gameStart | gameStateUpdate | error.

Definition eventNameEqb (a b : EventName) : bool :=
  match a, b with
  | lobbyUpdate, lobbyUpdate | gameStart, gameStart
  | gameStateUpdate, gameStateUpdate | error, error => true
  | _, _ => false
  end.

(** The event name a listener was registered under. *)
Definition listensOn (l : Listener) : EventName :=
  match l with
  | OnLobbyUpdate => lobbyUpdate
  | OnGameStart => gameStart
  | OnError | OnceError => error
  | OnceGameStateUpdate _ _ => gameStateUpdate
  end.

Definition nameOf (e : ServerEvent) : EventName :=
  match e with
  | LobbyUpdate _ => lobbyUpdate
  | GameStart _ => gameStart
  | GameStateUpdate => gameStateUpdate
  | Error _ => error
  end.

(** The socket object returned by [useSocket]: its [connected] flag and its
    listeners in registration order. *)
Record Socket : Type := mkSocket
  { connected : bool; listeners : list Listener }.

(** The callback armed by [setTimeout] in [handleStartGame] (lines 180-186).
    The arrow function closes over the constant [isStarting] of the render
    in which [handleStartGame] was created; [setIsStarting] never changes
    that constant, so the callback carries the value it had then. *)
Inductive TimerCallback : Type :=
| StartTimeout (capturedIsStarting : bool).

Record Timer : Type := mkTimer { due : Z; callback : TimerCallback }.

(** The component together with its environment.  [socket] is [None] while
    [useSocket] has not produced a socket yet ([!socket] in the source). *)
Record World : Type := mkWorld
  { view : View;
    socket : option Socket;
    timers : list Timer;
    clock : Z }.

Definition initialWorld (s : option Socket) : World :=
  {| view := initialView; socket := s; timers := []; clock := 0 |}.

(** ** The monad of handlers: state [World], output [list Effect] *)

Record Outcome (A : Type) : Type := mkOutcome
  { value : A; world : World; effects : list Effect }.
Arguments mkOutcome {A} _ _ _.
Arguments value {A} _.
Arguments world {A} _.
Arguments effects {A} _.

Definition M (A : Type) : Type := World -> Outcome A.

Definition ret {A : Type} (a : A) : M A := fun w => mkOutcome a w [].

Definition bind {A B : Type} (m : M A) (f : A -> M B) : M B :=
  fun w =>
    let r1 := m w in
    let r2 := f (value r1) (world r1) in
    mkOutcome (value r2) (world r2) (effects r1 ++ effects r2).

Declare Scope handler_scope.
Delimit Scope handler_scope with handler.
Notation "x <- c1 ;; c2" := (bind c1 (fun x => c2))
  (at level 61, c1 at next level, right associativity) : handler_scope.
Notation "c1 ;; c2" := (bind c1 (fun _ => c2))
  (at level 61, right associativity) : handler_scope.
Local Open Scope handler_scope.

Definition skip : M unit := ret tt.

Definition getWorld : M World := fun w => mkOutcome w w [].
Definition getView : M View := fun w => mkOutcome (view w) w [].
Definition getSocket : M (option Socket) := fun w => mkOutcome (socket w) w [].
Definition tell (e : Effect) : M unit := fun w => mkOutcome tt w [e].

Definition modifyView (f : View -> View) : M unit :=
  fun w => mkOutcome tt (mkWorld (f (view w)) (socket w) (timers w) (clock w)) [].

Definition modifySocket (f : Socket -> Socket) : M unit :=
  fun w => mkOutcome tt
    (mkWorld (view w) (option_map f (socket w)) (timers w) (clock w)) [].

(** [socket.on(name, h)] and [socket.once(name, h)]: append to the
    listeners. *)
Definition subscribe (l : Listener) : M unit :=
  modifySocket (fun s => mkSocket (connected s) (listeners s ++ [l])).

(** [socket.off(name)]: remove every listener of that event. *)
Definition off (n : EventName) : M unit :=
  modifySocket (fun s =>
    mkSocket (connected s)
             (filter (fun l => negb (eventNameEqb (listensOn l) n)) (listeners s))).

(** [socket.emit(name, payload)]: fire and forget. *)
Definition emit (m : ClientMessage) : M unit := tell (Emit m).
Definition alert (message : string) : M unit := tell (Alert message).
Definition routerPush (url : string) : M unit := tell (RouterPush url).
Definition consoleLog (text : string) : M unit := tell (ConsoleLog text).
Definition consoleError (text : string) : M unit := tell (ConsoleError text).

(** [setTimeout(cb, ms)]. *)
Definition setTimeout (cb : TimerCallback) (ms : Z) : M unit :=
  fun w => mkOutcome tt
    (mkWorld (view w) (socket w) (timers w ++ [mkTimer (clock w + ms) cb]) (clock w)) [].

(** The messages emitted in a log, in order. *)
Fixpoint emitted (log : list Effect) : list ClientMessage :=
  match log with
  | [] => []
  | Emit m :: rest => m :: emitted rest
  | _ :: rest => emitted rest
  end.

(** The notifications shown to the user in a log, in order. *)
Fixpoint alerts (log : list Effect) : list string :=
  match log with
  | [] => []
  | Alert m :: rest => m :: alerts rest
  | _ :: rest => alerts rest
  end.

(** The navigations in a log, in order. *)
Fixpoint navigations (log : list Effect) : list string :=
  match log with
  | [] => []
  | RouterPush u :: rest => u :: navigations rest
  | _ :: rest => navigations rest
  end.

(** ** The catalog response formatter (lines 112-119)

    [data.items.filter(item => item && item.tracks).map(item => ...)].
    An entry of [items] may be [null] ([None]).  The mapped function reads
    [item.tracks.total]: on an entry that is [null] or has no [tracks] it
    would raise a [TypeError], which is [None] here. *)

(** [item && item.tracks], as a boolean. *)
Definition hasTracks (item : option Item.t) : bool :=
  match item with
  | Some it => isSome (Item.tracks it)
  | None => false
  end.

(** [item.images?.[0]?.url || null]. *)
Definition firstImageUrl (images : option (list (option Item.image))) : option string :=
  match images with
  | Some (Some img :: _) =>
      match Item.url img with
      | Some u => if truthy u then Some u else None
      | None => None
      end
  | _ => None
  end.

(** The object literal of lines 114-119, for an entry whose [tracks] is
    [tr]. *)
Definition formatItem (it : Item.t) (tr : Item.tracksObject) : Playlist.t :=
  {| Playlist.id := Item.id it;
     Playlist.name :=
       match Item.name it with
       | Some n => orString n "Unnamed Playlist"
       | None => "Unnamed Playlist"
       end;
     Playlist.tracks :=
       match Item.total tr with
       | Some n => n
       | None => 0
       end;
     Playlist.imageUrl := firstImageUrl (Item.images it) |}.

(** The arrow function passed to [map]. *)
Definition formatEntry (item : option Item.t) : option Playlist.t :=
  match item with
  | Some it =>
      match Item.tracks it with
      | Some tr => Some (formatItem it tr)
      | None => None
      end
  | None => None
  end.

(** [Array.prototype.map] with a function that may raise. *)
Fixpoint mapOrRaise {A B : Type} (f : A -> option B) (l : list A) : option (list B) :=
  match l with
  | [] => Some []
  | a :: rest =>
      match f a with
      | Some b =>
          match mapOrRaise f rest with
          | Some bs => Some (b :: bs)
          | None => None
          end
      | None => None
      end
  end.

Definition formattedPlaylists (items : list (option Item.t)) : option (list Playlist.t) :=
  mapOrRaise formatEntry (filter hasTracks items).

(** What [fetch] and [response.json()] delivered: a rejected request, or a
    response with its [ok] flag and the [items] of its body ([None] when the
    body has no such array). *)
Inductive FetchOutcome : Type :=
| FetchRejected
| Response (ok : bool) (items : option (list (option Item.t))).

(** ** The start button's [disabled] attribute (lines 264-269) *)

Definition startDisabled (v : View) : bool :=
  negb (isSome (selectedPlaylist v))
  || negb (truthyString (spotifyToken v))
  || negb (forallb Player.isReady
             (filter (fun p => negb (Player.isHost p)) (players v)))
  || isStarting v.

(** ** The component *)

Section LobbyPage.

(** Route-derived inputs (lines 31-33). *)
Variables (lobbyId playerName : string) (isHost : bool).

(** [joinLobby] (lines 47-56). *)
Definition joinLobby : M unit :=
  s <- getSocket ;;
  if negb (isSome s) || negb (truthy playerName) || negb (truthy lobbyId)
  then skip
  else
    consoleLog "Joining lobby with:" ;;
    emit (JoinLobby lobbyId playerName isHost).

(** The body of the mount effect (lines 59-86). *)
Definition mountEffect : M unit :=
  s <- getSocket ;;
  match s with
  | None => skip
  | Some sk =>
      (if negb (connected sk) then joinLobby else skip) ;;
      subscribe OnLobbyUpdate ;;
      subscribe OnGameStart ;;
      subscribe OnError
  end.

(** The cleanup the effect returns (lines 87-91). *)
Definition cleanupEffect : M unit :=
  off lobbyUpdate ;; off gameStart ;; off error.

(** The body of each listener, applied to an event of the name it listens
    on.  The last case is never reached by [receive], which calls a listener
    only for events of its own name. *)
Definition runListener (l : Listener) (e : ServerEvent) : M unit :=
  match l, e with
  | OnLobbyUpdate, LobbyUpdate lobby =>
      consoleLog "Received lobby update:" ;;
      modifyView (setPlayers (Lobby.players lobby)) ;;
      match Lobby.spotifyPlaylist lobby with
      | Some p => modifyView (setSelectedPlaylist (Some p))
      | None => skip
      end
  | OnGameStart, GameStart playlistId =>
      routerPush ("/game/" ++ lobbyId ++ "?playlist=" ++ playlistId)
  | OnError, Error message =>
      alert message ;;
      routerPush "/"
  | OnceGameStateUpdate playlistId token, GameStateUpdate =>
      consoleLog "Game started successfully:" ;;
      routerPush ("/game/" ++ lobbyId ++ "?playlist=" ++ playlistId
                  ++ "&spotify_token=" ++ token)
  | OnceError, Error _ =>
      consoleError "Error starting game:" ;;
      alert "Failed to start game. Please try again." ;;
      modifyView (setIsStarting false)
  | _, _ => skip
  end.

Fixpoint runListeners (ls : list Listener) (e : ServerEvent) : M unit :=
  match ls with
  | [] => skip
  | l :: rest => runListener l e ;; runListeners rest e
  end.

Definition listensTo (e : ServerEvent) (l : Listener) : bool :=
  eventNameEqb (listensOn l) (nameOf e).

(** An event arrives from the server.  The emitter calls the listeners of
    that name in registration order; a [once] listener is removed when it is
    called, so after the event none of that name is left. *)
Definition receive (e : ServerEvent) : M unit :=
  s <- getSocket ;;
  match s with
  | None => skip
  | Some sk =>
      modifySocket (fun s =>
        mkSocket (connected s)
                 (filter (fun l => negb (isOnce l && listensTo e l)) (listeners s))) ;;
      runListeners (filter (listensTo e) (listeners sk)) e
  end.

(** The body of a timer callback (lines 181-185). *)
Definition runTimer (cb : TimerCallback) : M unit :=
  match cb with
  | StartTimeout capturedIsStarting =>
      if capturedIsStarting
      then
        consoleError "Game start timeout" ;;
        alert "Game start timed out. Please try again." ;;
        modifyView (setIsStarting false)
      else skip
  end.

Fixpoint runTimers (cbs : list TimerCallback) : M unit :=
  match cbs with
  | [] => skip
  | cb :: rest => runTimer cb ;; runTimers rest
  end.

(** [ms] milliseconds pass with no other event: the timers that are due
    fire, in the order they were armed (all timers of this component have
    the same delay, so that is also the order they are due in). *)
Definition elapse (ms : Z) : M unit :=
  fun w =>
    let now := clock w + ms in
    runTimers
      (map callback (filter (fun t => due t <=? now) (timers w)))
      (mkWorld (view w) (socket w)
               (filter (fun t => negb (due t <=? now)) (timers w)) now).

(** [handleSpotifyAuth] (lines 95-127), given what the request delivered.
    Every [throw] and every [TypeError] inside the [try] ends in the [catch]
    block; the token is stored before the request is made. *)
Definition handleSpotifyAuth (token : string) (outcome : FetchOutcome) : M unit :=
  let catch :=
    consoleError "Error fetching playlists:" ;;
    alert "Failed to load playlists. Please try again." in
  modifyView (setSpotifyToken (Some token)) ;;
  match outcome with
  | FetchRejected => catch
  | Response false _ => catch
  | Response true None => catch
  | Response true (Some items) =>
      match formattedPlaylists items with
      | None => catch
      | Some ps =>
          modifyView (setPlaylists ps) ;;
          modifyView (setShowPlaylistDialog true)
      end
  end.

(** [handlePlaylistSelect] (lines 129-140). *)
Definition handlePlaylistSelect (playlist : Playlist.t) : M unit :=
  s <- getSocket ;;
  if negb (isSome s) then skip
  else
    modifyView (setSelectedPlaylist (Some playlist)) ;;
    modifyView (setShowPlaylistDialog false) ;;
    emit (UpdatePlaylist lobbyId (Playlist.id playlist) (Playlist.name playlist)).

(** The guard of [handleStartGame] (line 143),
    [!socket || !selectedPlaylist || !spotifyToken], returning the selection
    and the token when it passes. *)
Definition startRequirements (w : World) : option (Playlist.t * string) :=
  match socket w, selectedPlaylist (view w), spotifyToken (view w) with
  | Some _, Some playlist, Some token =>
      if truthy token then Some (playlist, token) else None
  | _, _, _ => None
  end.

(** [handleStartGame] (lines 142-193).  The handler runs in the render it was
    created in: [selectedPlaylist], [spotifyToken] and [isStarting] are the
    constants of that render, which is the view at the time of the click.
    Nothing inside the [try] raises in this embedding, so the [catch] block
    (lines 188-192) has no counterpart. *)
Definition handleStartGame : M unit :=
  w <- getWorld ;;
  let render := view w in
  match startRequirements w with
  | None => consoleError "Missing required data:"
  | Some (playlist, token) =>
      modifyView (setIsStarting true) ;;
      consoleLog "Starting game with:" ;;
      emit (StartGame lobbyId token) ;;
      subscribe (OnceGameStateUpdate (Playlist.id playlist) token) ;;
      subscribe OnceError ;;
      setTimeout (StartTimeout (isStarting render)) 5000
  end.

(** [handleReady] (lines 195-199); [isReady] is the constant of the render. *)
Definition handleReady : M unit :=
  s <- getSocket ;;
  render <- getView ;;
  if negb (isSome s) then skip
  else
    emit (ToggleReady lobbyId) ;;
    modifyView (setIsReady (negb (isReady render))).

(** The start button exists only inside the host controls, once a token is
    there (lines 223-229). *)
Definition startControlRendered (v : View) : bool :=
  isHost && truthyString (spotifyToken v).

(** A click on the start button: a button that is not rendered or is
    disabled does not call its [onClick]. *)
Definition clickStart : M unit :=
  v <- getView ;;
  if startControlRendered v && negb (startDisabled v)
  then handleStartGame
  else skip.

(** A click on the ready button, rendered for non-hosts only (line 314). *)
Definition clickReady : M unit :=
  if negb isHost then handleReady else skip.

(** What can happen to a mounted component. *)
Inductive Step : Type :=
| Mount
| Unmount
| Receive (e : ServerEvent)
| AuthSuccess (token : string) (outcome : FetchOutcome)
| SelectPlaylist (playlist : Playlist.t)
| ClickStart
| ClickReady
| Elapse (ms : Z).

Definition step (s : Step) : M unit :=
  match s with
  | Mount => mountEffect
  | Unmount => cleanupEffect
  | Receive e => receive e
  | AuthSuccess token outcome => handleSpotifyAuth token outcome
  | SelectPlaylist playlist => handlePlaylistSelect playlist
  | ClickStart => clickStart
  | ClickReady => clickReady
  | Elapse ms => elapse ms
  end.

Fixpoint steps (ss : list Step) : M unit :=
  match ss with
  | [] => skip
  | s :: rest => step s ;; steps rest
  end.

(** A sequence of [lobbyUpdate] events, received one after the other. *)
Definition receiveLobbyUpdates (snapshots : list Lobby.t) : M unit :=
  steps (map (fun lobby => Receive (LobbyUpdate lobby)) snapshots).


(** ** The ready button (lines 201-203 and 317-320)

    [players.find(p => p.id === socket?.id)] and
    [currentPlayer?.isReady || false].  [socketId] is the value of
    [socket?.id]: [None] while there is no socket or the socket has no id
    yet, in which case no player matches. *)
Definition currentPlayer (socketId : option string) (ps : list Player.t) : option Player.t :=
  match socketId with
  | Some i => find (fun p => (Player.id p =? i)%string) ps
  | None => None
  end.

Definition isPlayerReady (socketId : option string) (ps : list Player.t) : bool :=
  match currentPlayer socketId ps with
  | Some p => Player.isReady p
  | None => false
  end.

(** The label of the ready button (line 320). *)
Definition readyButtonLabel (socketId : option string) (ps : list Player.t) : string :=
  if isPlayerReady socketId ps then "Not Ready" else "Ready".

(** ** Vocabulary of the properties *)

(** Every player with [isHost = false] has [isReady = true]. *)
Definition allNonHostReady (ps : list Player.t) : Prop :=
  forall p, In p ps -> Player.isHost p = false -> Player.isReady p = true.

(** The listener [l] is registered on the socket of [w]. *)
Definition subscribed (l : Listener) (w : World) : Prop :=
  exists sk, socket w = Some sk /\ In l (listeners sk).

(** [l1] is a contiguous part of [l2]. *)
Definition occursIn {A : Type} (l1 l2 : list A) : Prop :=
  exists before after, l2 = (before ++ l1 ++ after)%list.

(** The view once the [lobbyUpdate] listener has processed [lobby]. *)
Definition snapshotApplied (lobby : Lobby.t) (v : View) : View :=
  let v' := setPlayers (Lobby.players lobby) v in
  match Lobby.spotifyPlaylist lobby with
  | Some p => setSelectedPlaylist (Some p) v'
  | None => v'
  end.

(** [ps] is [items] with the entries that have no [tracks] dropped and
    every other entry formatted, in the order of [items]. *)
Inductive FormattedFrom : list (option Item.t) -> list Playlist.t -> Prop :=
| FormattedFrom_nil : FormattedFrom [] []
| FormattedFrom_drop (item : option Item.t) items ps :
    hasTracks item = false ->
    FormattedFrom items ps ->
    FormattedFrom (item :: items) ps
| FormattedFrom_keep (it : Item.t) (tr : Item.tracksObject) items ps :
    Item.tracks it = Some tr ->
    FormattedFrom items ps ->
    FormattedFrom (Some it :: items) (formatItem it tr :: ps).

(** ** Sample data *)

Definition ada : Player.t := Player.make "p1" "Ada" false true.
Definition bob : Player.t := Player.make "p2" "Bob" true false.
Definition cy : Player.t := Player.make "p3" "Cy" false false.

Definition roadTrip : Playlist.t := Playlist.make "pl1" "Road Trip" 12 None.

(** A world in which [useSocket] has produced a socket that is not
    connected yet and has no listeners. *)
Definition freshWorld : World := initialWorld (Some (mkSocket false [])).


(** The host's lobby after mounting, authenticating, selecting a playlist and
    receiving a snapshot in which the only non-host player is ready. *)
Definition readyLobby : list Step :=
  [ Mount;
    AuthSuccess "token" (Response true (Some []));
    SelectPlaylist roadTrip;
    Receive (LobbyUpdate (Lobby.make [ada; bob] None)) ].

(** The same, except that a second non-host player has not marked
    themselves ready. *)
Definition unreadyLobby : list Step :=
  [ Mount;
    AuthSuccess "token" (Response true (Some []));
    SelectPlaylist roadTrip;
    Receive (LobbyUpdate (Lobby.make [ada; bob; cy] None)) ].

(** The authentication component reports success with an empty token, the
    catalog request fails, and a snapshot carries a playlist. *)
Definition emptyTokenLobby : list Step :=
  [ Mount;
    AuthSuccess "" (Response false None);
    Receive (LobbyUpdate (Lobby.make [ada; bob] (Some roadTrip))) ].

(** The worlds those sequences lead to from [freshWorld] (see
    [sample_worlds_reached]). *)
Definition mountedSocket : Socket :=
  mkSocket false [OnLobbyUpdate; OnGameStart; OnError].

Definition mountedWorld : World :=
  mkWorld initialView (Some mountedSocket) [] 0.

Definition readyWorld : World :=
  mkWorld (mkView [ada; bob] false (Some "token") [] (Some roadTrip) false false)
          (Some mountedSocket) [] 0.

Definition unreadyWorld : World :=
  mkWorld (mkView [ada; bob; cy] false (Some "token") [] (Some roadTrip) false false)
          (Some mountedSocket) [] 0.

Definition emptyTokenWorld : World :=
  mkWorld (mkView [ada; bob] false (Some "") [] (Some roadTrip) false false)
          (Some mountedSocket) [] 0.

(** Catalog entries: complete, without [tracks], without [name] and
    artwork. *)
Definition itemComplete : Item.t :=
  Item.make "a" (Some "Alpha") (Some (Item.makeTracks (Some 3)))
            (Some [Some (Item.makeImage (Some "http://img/a"))]).
Definition itemNoTracks : Item.t :=
  Item.make "b" (Some "Beta") None None.
Definition itemBare : Item.t :=
  Item.make "c" None (Some (Item.makeTracks None)) None.

(** ** What a listener and a timer callback do, as functions

    Used to describe the outcome of [receive] and [elapse] in closed form
    (see [runListener_outcome] and [runTimer_outcome]). *)

(** The view after listener [l] has handled [e]. *)
Definition listenerView (l : Listener) (e : ServerEvent) (v : View) : View :=
  match l, e with
  | OnLobbyUpdate, LobbyUpdate lobby => snapshotApplied lobby v
  | OnceError, Error _ => setIsStarting false v
  | _, _ => v
  end.

(** What listener [l] logs when it handles [e]. *)
Definition listenerEffects (l : Listener) (e : ServerEvent) : list Effect :=
  match l, e with
  | OnLobbyUpdate, LobbyUpdate _ => [ConsoleLog "Received lobby update:"]
  | OnGameStart, GameStart playlistId =>
      [RouterPush ("/game/" ++ lobbyId ++ "?playlist=" ++ playlistId)]
  | OnError, Error message => [Alert message; RouterPush "/"]
  | OnceGameStateUpdate playlistId token, GameStateUpdate =>
      [ConsoleLog "Game started successfully:";
       RouterPush ("/game/" ++ lobbyId ++ "?playlist=" ++ playlistId
                   ++ "&spotify_token=" ++ token)]
  | OnceError, Error _ =>
      [ConsoleError "Error starting game:";
       Alert "Failed to start game. Please try again."]
  | _, _ => []
  end.

(** The same for a timer callback. *)
Definition timerView (cb : TimerCallback) (v : View) : View :=
  match cb with
  | StartTimeout true => setIsStarting false v
  | StartTimeout false => v
  end.

Definition timerEffects (cb : TimerCallback) : list Effect :=
  match cb with
  | StartTimeout true =>
      [ConsoleError "Game start timeout";
       Alert "Game start timed out. Please try again."]
  | StartTimeout false => []
  end.

(** The selection after a sequence of snapshots: the playlist of the last
    snapshot that carries one, or [current] if none does. *)
Definition lastPlaylist (snapshots : list Lobby.t) (current : option Playlist.t)
  : option Playlist.t :=
  fold_left
    (fun acc lobby =>
       match Lobby.spotifyPlaylist lobby with
       | Some p => Some p
       | None => acc
       end)
    snapshots current.

(** Every pending timer carries the value [false]. *)
Definition timersInert (w : World) : Prop :=
  Forall (fun t => callback t = StartTimeout false) (timers w).

(** The step is the arrival of an [error] event. *)
Definition isErrorEvent (s : Step) : bool :=
  match s with
  | Receive (Error _) => true
  | _ => false
  end.

(** The request delivered a response with [ok] set and an [items] array. *)
Definition fetchSucceeded (outcome : FetchOutcome) : bool :=
  match outcome with
  | Response true (Some _) => true
  | _ => false
  end.

(** The lobby id a message carries. *)
Definition lobbyOf (m : ClientMessage) : string :=
  match m with
  | JoinLobby l _ _ | ToggleReady l | UpdatePlaylist l _ _ | StartGame l _ => l
  end.

(** A second playlist, and the world of the host right after a click on the
    enabled start button of [readyWorld] (see [startingWorld_reached]). *)
Definition mixTape : Playlist.t := Playlist.make "pl2" "Mix Tape" 0 None.

Definition startingWorld : World :=
  mkWorld (mkView [ada; bob] false (Some "token") [] (Some roadTrip) false true)
          (Some (mkSocket false
                   [OnLobbyUpdate; OnGameStart; OnError;
                    OnceGameStateUpdate "pl1" "token"; OnceError]))
          [mkTimer 5000 (StartTimeout false)] 0.

(** The listeners of the socket of [w] that are registered on [error], in
    registration order. *)
Definition errorListeners (w : World) : list Listener :=
  match socket w with
  | Some sk => filter (fun l => eventNameEqb (listensOn l) error) (listeners sk)
  | None => []
  end.

(** The step runs the body of the mount effect or its cleanup. *)
Definition isEffectStep (s : Step) : bool :=
  match s with
  | Mount | Unmount => true
  | _ => false
  end.



(** The [error] listeners are the persistent one of the mount effect,
    followed by the one-time listener of [handleStartGame] exactly while a
    start is in flight; there is a socket, and every pending timer carries
    [false]. *)
Definition errorHandlersInPlace (w : World) : Prop :=
  timersInert w
  /\ socket w <> None
  /\ errorListeners w
     = OnError :: (if isStarting (view w) then [OnceError] else []).

(** The host's lobby after a start that failed with an [error] event and the
    selection of another playlist (see [restartWorld_reached]). *)
Definition restartWorld : World :=
  mkWorld (mkView [ada; bob] false (Some "token") [] (Some mixTape) false false)
          (Some (mkSocket false
                   [OnLobbyUpdate; OnGameStart; OnError;
                    OnceGameStateUpdate "pl1" "token"]))
          [mkTimer 5000 (StartTimeout false)] 0.

(** ** Properties *)

(** *** Truthiness and readiness *)

Lemma truthy_true_iff (s : string) : truthy s = true <-> s <> "".
Proof.
  unfold truthy. destruct (String.eqb_spec s ""); simpl; split; congruence.
Qed.

Lemma truthyString_true_iff (o : option string) :
  truthyString o = true <-> exists t, o = Some t /\ t <> "".
Proof.
  destruct o as [t|]; simpl.
  - rewrite truthy_true_iff. split.
    + intros H. exists t. split; [reflexivity | exact H].
    + intros (t' & Heq & Hne). congruence.
  - split; [discriminate | intros (t & Heq & _); discriminate].
Qed.

Lemma isSome_true_iff {A : Type} (o : option A) : isSome o = true <-> o <> None.
Proof. destruct o; simpl; split; congruence. Qed.

Lemma allNonHostReady_iff (ps : list Player.t) :
  forallb Player.isReady (filter (fun p => negb (Player.isHost p)) ps) = true
  <-> allNonHostReady ps.
Proof.
  unfold allNonHostReady. rewrite forallb_forall. split.
  - intros H p Hin Hhost. apply H. apply filter_In. split; [exact Hin|].
    rewrite Hhost. reflexivity.
  - intros H p Hin. apply filter_In in Hin. destruct Hin as [Hin Hhost].
    apply H; [exact Hin|]. now apply negb_true_iff.
Qed.

Lemma startDisabled_false_iff (v : View) :
  startDisabled v = false
  <-> selectedPlaylist v <> None
      /\ (exists token, spotifyToken v = Some token /\ token <> "")
      /\ allNonHostReady (players v)
      /\ isStarting v = false.
Proof.
  unfold startDisabled.
  rewrite <- isSome_true_iff, <- truthyString_true_iff, <- allNonHostReady_iff.
  rewrite !orb_false_iff, !negb_false_iff. tauto.
Qed.

(** C1: wherever the start control is rendered (host controls, with a
    token), it is enabled exactly when a playlist is selected, the token is
    not [null], every player that is not the host is ready, and no start is
    in flight; its [disabled] attribute is the negation of that
    conjunction. *)
Theorem start_control_enabled_iff (v : View) :
  startControlRendered v = true ->
  let enabling :=
    selectedPlaylist v <> None
    /\ spotifyToken v <> None
    /\ allNonHostReady (players v)
    /\ isStarting v = false in
  (startDisabled v = false <-> enabling)
  /\ (startDisabled v = true <-> ~ enabling).
Proof.
  intros Hr enabling.
  assert (Htok : exists token, spotifyToken v = Some token /\ token <> "").
  { unfold startControlRendered in Hr. apply andb_true_iff in Hr.
    apply truthyString_true_iff. tauto. }
  assert (Hen : startDisabled v = false <-> enabling).
  { rewrite startDisabled_false_iff. unfold enabling. split.
    - intros (Hp & _ & Hready & Hi). destruct Htok as (t & Ht & _).
      repeat split; try assumption. congruence.
    - intros (Hp & _ & Hready & Hi). repeat split; assumption. }
  split; [exact Hen|].
  rewrite <- Hen. destruct (startDisabled v); split; congruence.
Qed.

(** *** Sequences of steps *)

Lemma steps_app (ss1 ss2 : list Step) (w : World) :
  world (steps (ss1 ++ ss2) w) = world (steps ss2 (world (steps ss1 w))).
Proof.
  revert w. induction ss1 as [|s ss1 IH]; intros w; [reflexivity|].
  cbn [app steps]. unfold bind. cbn [world]. apply IH.
Qed.

(** *** The [lobbyUpdate] listener *)

Lemma snapshotApplied_idem (lobby : Lobby.t) (v : View) :
  snapshotApplied lobby (snapshotApplied lobby v) = snapshotApplied lobby v.
Proof. unfold snapshotApplied. destruct (Lobby.spotifyPlaylist lobby); reflexivity. Qed.

Lemma players_snapshotApplied (lobby : Lobby.t) (v : View) :
  players (snapshotApplied lobby v) = Lobby.players lobby.
Proof. unfold snapshotApplied. destruct (Lobby.spotifyPlaylist lobby); reflexivity. Qed.

Lemma runListener_lobbyUpdate (l : Listener) (lobby : Lobby.t) (w : World) :
  listensTo (LobbyUpdate lobby) l = true ->
  world (runListener l (LobbyUpdate lobby) w)
  = mkWorld (snapshotApplied lobby (view w)) (socket w) (timers w) (clock w).
Proof.
  destruct l; try discriminate. intros _.
  unfold snapshotApplied. simpl.
  destruct (Lobby.spotifyPlaylist lobby); reflexivity.
Qed.

Lemma runListeners_lobbyUpdate (ls : list Listener) (lobby : Lobby.t) (w : World) :
  Forall (fun l => listensTo (LobbyUpdate lobby) l = true) ls ->
  ls <> [] ->
  world (runListeners ls (LobbyUpdate lobby) w)
  = mkWorld (snapshotApplied lobby (view w)) (socket w) (timers w) (clock w).
Proof.
  intros Hall. revert w. induction Hall as [|l ls Hl Hls IH]; intros w Hne.
  - congruence.
  - cbn [runListeners]. unfold bind. cbn [world].
    rewrite (runListener_lobbyUpdate l lobby w Hl).
    destruct ls as [|l' ls']; [reflexivity|].
    rewrite IH by discriminate. cbn [view socket timers clock].
    rewrite snapshotApplied_idem. reflexivity.
Qed.

Lemma once_never_on_lobbyUpdate (lobby : Lobby.t) (ls : list Listener) :
  filter (fun l => negb (isOnce l && listensTo (LobbyUpdate lobby) l)) ls = ls.
Proof.
  induction ls as [|l ls IH]; [reflexivity|].
  simpl. rewrite IH. destruct l; reflexivity.
Qed.

(** A world whose [lobbyUpdate] listener is registered processes a snapshot
    by applying it to the view; nothing else changes. *)
Lemma receive_lobbyUpdate (lobby : Lobby.t) (w : World) :
  subscribed OnLobbyUpdate w ->
  world (receive (LobbyUpdate lobby) w)
  = mkWorld (snapshotApplied lobby (view w)) (socket w) (timers w) (clock w).
Proof.
  intros (sk & Hsk & Hin).
  unfold receive, bind, getSocket. cbn [value world]. rewrite Hsk.
  cbn [world modifySocket].
  rewrite runListeners_lobbyUpdate.
  - cbn [view socket timers clock]. rewrite Hsk. cbn [option_map].
    rewrite once_never_on_lobbyUpdate. destruct sk; reflexivity.
  - apply Forall_forall. intros l Hl. apply filter_In in Hl. tauto.
  - intros Hnil.
    assert (Hin' : In OnLobbyUpdate (filter (listensTo (LobbyUpdate lobby)) (listeners sk))).
    { apply filter_In. split; [exact Hin | reflexivity]. }
    rewrite Hnil in Hin'. exact Hin'.
Qed.

Lemma receive_lobbyUpdate_subscribed (l : Listener) (lobby : Lobby.t) (w : World) :
  subscribed OnLobbyUpdate w ->
  subscribed l w ->
  subscribed l (world (receive (LobbyUpdate lobby) w)).
Proof.
  intros Hsub Hl. rewrite receive_lobbyUpdate by exact Hsub. exact Hl.
Qed.

Lemma receiveLobbyUpdates_subscribed (snapshots : list Lobby.t) (w : World) :
  subscribed OnLobbyUpdate w ->
  subscribed OnLobbyUpdate (world (receiveLobbyUpdates snapshots w)).
Proof.
  revert w. induction snapshots as [|lobby rest IH]; intros w Hsub; [exact Hsub|].
  unfold receiveLobbyUpdates. cbn [map steps step]. unfold bind at 1. cbn [world].
  apply IH. apply receive_lobbyUpdate_subscribed; exact Hsub.
Qed.

(** The mount effect registers the three persistent listeners. *)
Lemma mountEffect_subscribes (w : World) :
  socket w <> None ->
  subscribed OnLobbyUpdate (world (mountEffect w))
  /\ subscribed OnGameStart (world (mountEffect w))
  /\ subscribed OnError (world (mountEffect w)).
Proof.
  intros Hs. unfold mountEffect, bind, getSocket. cbn [value world].
  destruct (socket w) as [sk|] eqn:Hsk; [|congruence].
  assert (Hj : socket (world ((if negb (connected sk) then joinLobby else skip) w)) = Some sk).
  { destruct (connected sk); cbn; [exact Hsk|].
    unfold joinLobby, bind, getSocket. cbn [value world]. rewrite Hsk.
    destruct (_ || _ || _); exact Hsk. }
  unfold subscribed. cbn. rewrite Hj. cbn.
  repeat split; eexists; (split; [reflexivity|]); cbn;
    rewrite !in_app_iff; cbn; tauto.
Qed.

(** C4: after any sequence of [lobbyUpdate] events, received while the
    listener of the mount effect is registered, [players] is exactly the
    [players] field of the snapshot received last; a player of an earlier
    snapshot is in the list only if the last snapshot holds it. *)
Theorem players_equal_last_snapshot
    (w : World) (earlier : list Lobby.t) (last : Lobby.t) :
  subscribed OnLobbyUpdate w ->
  let after := world (receiveLobbyUpdates (earlier ++ [last]) w) in
  players (view after) = Lobby.players last
  /\ (forall p, In p (players (view after)) -> In p (Lobby.players last)).
Proof.
  intros Hsub after.
  assert (Hp : players (view after) = Lobby.players last).
  { unfold after, receiveLobbyUpdates. rewrite map_app, steps_app.
    cbn [map steps step]. unfold bind at 1. cbn [world skip ret].
    rewrite receive_lobbyUpdate.
    - cbn [view]. apply players_snapshotApplied.
    - apply (receiveLobbyUpdates_subscribed earlier w Hsub). }
  split; [exact Hp|]. rewrite Hp. auto.
Qed.

(** C5: a snapshot without a playlist leaves [selectedPlaylist] as it was; a
    snapshot that carries one overwrites it. *)
Theorem lobby_update_selected_playlist (w : World) (lobby : Lobby.t) :
  subscribed OnLobbyUpdate w ->
  let after := world (receive (LobbyUpdate lobby) w) in
  (Lobby.spotifyPlaylist lobby = None ->
   selectedPlaylist (view after) = selectedPlaylist (view w))
  /\ (forall p, Lobby.spotifyPlaylist lobby = Some p ->
      selectedPlaylist (view after) = Some p).
Proof.
  intros Hsub after. unfold after. rewrite receive_lobbyUpdate by exact Hsub.
  cbn [view]. unfold snapshotApplied.
  split; [intros Hnone | intros p Hsome]; rewrite ?Hnone, ?Hsome; reflexivity.
Qed.

(** *** Logs *)

Lemma emitted_app (l1 l2 : list Effect) :
  emitted (l1 ++ l2) = (emitted l1 ++ emitted l2)%list.
Proof.
  induction l1 as [|e l1 IH]; [reflexivity|].
  destruct e; cbn [app emitted]; rewrite IH; reflexivity.
Qed.

(** *** Listeners leave the socket and the timers alone *)

Lemma runListener_frame (l : Listener) (e : ServerEvent) (w : World) :
  socket (world (runListener l e w)) = socket w
  /\ timers (world (runListener l e w)) = timers w
  /\ emitted (effects (runListener l e w)) = [].
Proof.
  destruct l, e; cbn; try (repeat split; reflexivity).
  destruct (Lobby.spotifyPlaylist lobby); repeat split; reflexivity.
Qed.

Lemma runListeners_frame (ls : list Listener) (e : ServerEvent) (w : World) :
  socket (world (runListeners ls e w)) = socket w
  /\ timers (world (runListeners ls e w)) = timers w
  /\ emitted (effects (runListeners ls e w)) = [].
Proof.
  revert w. induction ls as [|l ls IH]; intros w; [repeat split; reflexivity|].
  cbn [runListeners]. unfold bind. cbn [world effects].
  destruct (runListener_frame l e w) as (Hs & Ht & He).
  destruct (IH (world (runListener l e w))) as (Hs' & Ht' & He').
  rewrite Hs', Ht', emitted_app, He, He'. repeat split; assumption.
Qed.

(** Receiving an event never emits, and keeps every persistent listener. *)
Lemma receive_frame (e : ServerEvent) (w : World) :
  emitted (effects (receive e w)) = []
  /\ (socket w <> None -> socket (world (receive e w)) <> None)
  /\ (forall l, isOnce l = false -> subscribed l w ->
      subscribed l (world (receive e w))).
Proof.
  unfold receive, bind, getSocket. cbn [value world effects].
  destruct (socket w) as [sk|] eqn:Hsk.
  - cbn [value world effects app modifySocket].
    match goal with |- context [runListeners ?ls e ?w'] =>
      destruct (runListeners_frame ls e w') as (Hs & _ & He) end.
    rewrite He. unfold subscribed. rewrite Hs. cbn. rewrite Hsk. cbn.
    split; [reflexivity|]. split; [discriminate|].
    intros l Hl (sk' & Heq & Hin). injection Heq as <-.
    eexists. split; [reflexivity|]. cbn. apply filter_In.
    split; [exact Hin|]. rewrite Hl. reflexivity.
  - cbn. rewrite Hsk. repeat split; auto.
Qed.

Lemma receiveAll_socket (events : list ServerEvent) (w : World) :
  socket w <> None ->
  socket (world (steps (map Receive events) w)) <> None.
Proof.
  revert w. induction events as [|e events IH]; intros w Hs; [exact Hs|].
  cbn [map steps step]. unfold bind. cbn [world]. apply IH.
  apply receive_frame. exact Hs.
Qed.

(** C6: with a socket at hand, one call of [handleReady] emits exactly one
    [toggleReady] message carrying the lobby id and negates the local
    [isReady] once, whatever events the server has sent before. *)
Theorem toggle_ready_emits_once_and_flips
    (w : World) (events : list ServerEvent) :
  socket w <> None ->
  let before := world (steps (map Receive events) w) in
  let r := handleReady before in
  effects r = [Emit (ToggleReady lobbyId)]
  /\ isReady (view (world r)) = negb (isReady (view before))
  /\ world r = mkWorld (setIsReady (negb (isReady (view before))) (view before))
                       (socket before) (timers before) (clock before).
Proof.
  intros Hs before r.
  assert (Hb : socket before <> None) by (apply receiveAll_socket; exact Hs).
  unfold r, handleReady, bind, getSocket, getView. cbn [value world effects].
  destruct (socket before) as [sk|] eqn:Hsk; [|congruence].
  cbn. rewrite Hsk. repeat split; reflexivity.
Qed.

(** *** The [error] listeners *)

Lemma runListeners_error_occurs (ls : list Listener) (message : string) (w : World) :
  In OnError ls ->
  occursIn [Alert message; RouterPush "/"]
           (effects (runListeners ls (Error message) w)).
Proof.
  revert w. induction ls as [|l ls IH]; intros w Hin; [contradiction|].
  cbn [runListeners]. unfold bind. cbn [effects].
  destruct Hin as [-> | Hin].
  - exists [], (effects (runListeners ls (Error message) (world (runListener OnError (Error message) w)))).
    reflexivity.
  - destruct (IH (world (runListener l (Error message) w)) Hin) as (b & a & Heq).
    exists (effects (runListener l (Error message) w) ++ b)%list, a.
    rewrite Heq. rewrite <- app_assoc. reflexivity.
Qed.

(** C9: whenever an [error] event arrives while the listener of the mount
    effect is registered, the message is shown and then the router is sent
    to the entry screen; nothing is emitted, and the listener stays
    registered, so the same holds for every later [error] event. *)
Theorem error_event_is_fatal (w : World) (message : string) :
  subscribed OnError w ->
  let r := receive (Error message) w in
  occursIn [Alert message; RouterPush "/"] (effects r)
  /\ emitted (effects r) = []
  /\ subscribed OnError (world r).
Proof.
  intros Hsub r. split; [|split].
  - destruct Hsub as (sk & Hsk & Hin).
    unfold r, receive, bind, getSocket. cbn [value world effects].
    rewrite Hsk. cbn [app effects modifySocket].
    apply runListeners_error_occurs. apply filter_In. split; [exact Hin|reflexivity].
  - apply receive_frame.
  - apply receive_frame; [reflexivity | exact Hsub].
Qed.

(** *** [handleStartGame] *)

Lemma startRequirements_Some_iff (w : World) (playlist : Playlist.t) (token : string) :
  startRequirements w = Some (playlist, token)
  <-> socket w <> None
      /\ selectedPlaylist (view w) = Some playlist
      /\ spotifyToken (view w) = Some token
      /\ token <> "".
Proof.
  unfold startRequirements.
  destruct (socket w) as [sk|], (selectedPlaylist (view w)) as [p|],
           (spotifyToken (view w)) as [t|];
    try (split; [discriminate | intros (H1 & H2 & H3 & H4); congruence]).
  destruct (truthy t) eqn:Ht.
  - apply truthy_true_iff in Ht. split.
    + intros [= <- <-]. repeat split; congruence.
    + intros (_ & [= <-] & [= <-] & _). reflexivity.
  - split; [discriminate|]. intros (_ & _ & [= <-] & Hne).
    apply truthy_true_iff in Hne. congruence.
Qed.

Lemma startRequirements_None_iff (w : World) :
  startRequirements w = None
  <-> ~ (socket w <> None
         /\ selectedPlaylist (view w) <> None
         /\ (exists token, spotifyToken (view w) = Some token /\ token <> "")).
Proof.
  split.
  - intros Hnone (Hs & Hp & token & Ht & Hne).
    destruct (selectedPlaylist (view w)) as [p|] eqn:Hsel; [|congruence].
    assert (H : startRequirements w = Some (p, token)).
    { apply startRequirements_Some_iff. auto. }
    congruence.
  - intros Hn. destruct (startRequirements w) as [[p t]|] eqn:Hreq; [|reflexivity].
    apply startRequirements_Some_iff in Hreq. destruct Hreq as (Hs & Hp & Ht & Hne).
    exfalso. apply Hn. split; [exact Hs|]. split; [congruence|]. eauto.
Qed.

Lemma handleStartGame_accepts
    (w : World) (sk : Socket) (playlist : Playlist.t) (token : string) :
  socket w = Some sk ->
  startRequirements w = Some (playlist, token) ->
  handleStartGame w
  = mkOutcome tt
      (mkWorld
         (setIsStarting true (view w))
         (Some (mkSocket (connected sk)
                  ((listeners sk ++ [OnceGameStateUpdate (Playlist.id playlist) token])
                   ++ [OnceError])))
         (timers w ++ [mkTimer (clock w + 5000) (StartTimeout (isStarting (view w)))])
         (clock w))
      [ConsoleLog "Starting game with:"; Emit (StartGame lobbyId token)].
Proof.
  intros Hsk Hreq. unfold handleStartGame, bind, getWorld. cbn [value world effects].
  rewrite Hreq. cbn. rewrite Hsk. reflexivity.
Qed.

Lemma handleStartGame_rejects (w : World) :
  startRequirements w = None ->
  handleStartGame w = mkOutcome tt w [ConsoleError "Missing required data:"].
Proof.
  intros Hreq. unfold handleStartGame, bind, getWorld. cbn [value world effects].
  rewrite Hreq. reflexivity.
Qed.

Lemma clickStart_unfold (w : World) :
  clickStart w
  = if startControlRendered (view w) && negb (startDisabled (view w))
    then handleStartGame w
    else mkOutcome tt w [].
Proof.
  unfold clickStart, bind, getView. cbn [value world effects app].
  destruct (startControlRendered (view w) && negb (startDisabled (view w)));
    [destruct (handleStartGame w)|]; reflexivity.
Qed.

(** C3: starting the game, that is a click on the start control, is guarded.
    If no playlist is selected, or there is no token, or some player that is
    not the host is not ready, the click logs nothing, emits nothing and
    leaves the state as it is.  A start intent is emitted only with all
    three in place, and then it carries the lobby id and the token and
    [isStarting] is [true] afterwards.  With all three in place, a socket at
    hand and no start in flight, the host's click does emit it. *)
Theorem start_game_guarded (w : World) :
  let preconditions :=
    selectedPlaylist (view w) <> None
    /\ spotifyToken (view w) <> None
    /\ allNonHostReady (players (view w)) in
  (~ preconditions ->
   effects (clickStart w) = [] /\ world (clickStart w) = w)
  /\ (forall m, In m (emitted (effects (clickStart w))) ->
        preconditions
        /\ isStarting (view (world (clickStart w))) = true
        /\ exists token,
             spotifyToken (view w) = Some token /\ m = StartGame lobbyId token)
  /\ (isHost = true ->
      socket w <> None ->
      isStarting (view w) = false ->
      selectedPlaylist (view w) <> None ->
      allNonHostReady (players (view w)) ->
      forall token,
        spotifyToken (view w) = Some token ->
        token <> "" ->
        emitted (effects (clickStart w)) = [StartGame lobbyId token]
        /\ isStarting (view (world (clickStart w))) = true).
Proof.
  intros preconditions.
  assert (Hpre : startDisabled (view w) = false -> preconditions).
  { intros Hd. apply startDisabled_false_iff in Hd.
    destruct Hd as (Hp & (t & Ht & _) & Hr & _).
    unfold preconditions. repeat split; try assumption. congruence. }
  split; [|split].
  - intros Hn. rewrite clickStart_unfold.
    destruct (startControlRendered (view w) && negb (startDisabled (view w))) eqn:Hc;
      [|split; reflexivity].
    apply andb_true_iff in Hc. destruct Hc as [_ Hd]. apply negb_true_iff in Hd.
    exfalso. apply Hn. apply Hpre. exact Hd.
  - intros m. rewrite clickStart_unfold.
    destruct (startControlRendered (view w) && negb (startDisabled (view w))) eqn:Hc;
      [|intros []].
    apply andb_true_iff in Hc. destruct Hc as [_ Hd]. apply negb_true_iff in Hd.
    destruct (startRequirements w) as [[p t]|] eqn:Hreq.
    + destruct (socket w) as [sk|] eqn:Hsk;
        [|apply startRequirements_Some_iff in Hreq; rewrite Hsk in Hreq; tauto].
      rewrite (handleStartGame_accepts w sk p t Hsk Hreq). cbn.
      intros [<- | []]. split; [apply Hpre; exact Hd|]. split; [reflexivity|].
      exists t. split; [|reflexivity].
      apply startRequirements_Some_iff in Hreq. tauto.
    + rewrite (handleStartGame_rejects w Hreq). intros [].
  - intros Hh Hs Hi Hp Hr token Ht Hne.
    destruct (socket w) as [sk|] eqn:Hsk; [|congruence].
    destruct (selectedPlaylist (view w)) as [p|] eqn:Hsel; [|congruence].
    assert (Hreq : startRequirements w = Some (p, token)).
    { apply startRequirements_Some_iff. rewrite Hsk. repeat split; congruence. }
    assert (Hd : startDisabled (view w) = false).
    { apply startDisabled_false_iff. split; [congruence|].
      split; [exists token; split; assumption|]. split; assumption. }
    rewrite clickStart_unfold. unfold startControlRendered.
    rewrite Hh, Ht, Hd. cbn [truthyString andb negb].
    apply truthy_true_iff in Hne. rewrite Hne.
    rewrite (handleStartGame_accepts w sk p token Hsk Hreq). split; reflexivity.
Qed.

(** C2 (what the code does): a start triggered through the enabled start
    control arms a timer whose callback tests the [isStarting] of the render
    of the click, which is [false]; when the five seconds pass with no event
    from the server the callback does nothing: no notification is shown and
    [isStarting] stays [true]. *)
Theorem start_timeout_never_reports (w : World) (ms : Z) :
  socket w <> None ->
  timers w = [] ->
  isHost = true ->
  startDisabled (view w) = false ->
  5000 <= ms ->
  let started := clickStart w in
  let r := elapse ms (world started) in
  (exists token, emitted (effects started) = [StartGame lobbyId token])
  /\ isStarting (view (world started)) = true
  /\ timers (world started) = [mkTimer (clock w + 5000) (StartTimeout false)]
  /\ effects r = []
  /\ timers (world r) = []
  /\ isStarting (view (world r)) = true.
Proof.
  intros Hs Ht Hh Hd Hms started r.
  pose proof Hd as Hen. apply startDisabled_false_iff in Hen.
  destruct Hen as (Hp & (token & Htok & Hne) & _ & Hi).
  destruct (socket w) as [sk|] eqn:Hsk; [|congruence].
  destruct (selectedPlaylist (view w)) as [p|] eqn:Hsel; [|congruence].
  assert (Hreq : startRequirements w = Some (p, token)).
  { apply startRequirements_Some_iff. rewrite Hsk. repeat split; congruence. }
  assert (Hstarted : started
            = handleStartGame w).
  { unfold started. rewrite clickStart_unfold. unfold startControlRendered.
    rewrite Hh, Htok, Hd. cbn. apply truthy_true_iff in Hne. rewrite Hne. reflexivity. }
  unfold r. rewrite Hstarted, (handleStartGame_accepts w sk p token Hsk Hreq).
  rewrite Ht, Hi. cbn [world effects view timers clock emitted app isStarting setIsStarting].
  split; [exists token; reflexivity|]. split; [reflexivity|]. split; [reflexivity|].
  unfold elapse. cbn [timers clock filter due map callback].
  assert (Hdue : (clock w + 5000 <=? clock w + ms) = true) by (apply Z.leb_le; lia).
  rewrite Hdue. cbn. repeat split; reflexivity.
Qed.

(** *** The catalog formatter *)

Lemma formattedPlaylists_cons_drop (item : option Item.t) (items : list (option Item.t)) :
  hasTracks item = false ->
  formattedPlaylists (item :: items) = formattedPlaylists items.
Proof. intros H. unfold formattedPlaylists. cbn [filter]. rewrite H. reflexivity. Qed.

Lemma formattedPlaylists_cons_keep
    (it : Item.t) (tr : Item.tracksObject) (items : list (option Item.t)) :
  Item.tracks it = Some tr ->
  formattedPlaylists (Some it :: items)
  = match formattedPlaylists items with
    | Some ps => Some (formatItem it tr :: ps)
    | None => None
    end.
Proof.
  intros H. unfold formattedPlaylists. cbn [filter hasTracks]. rewrite H.
  cbn [isSome mapOrRaise formatEntry]. rewrite H. reflexivity.
Qed.

Lemma hasTracks_cases (item : option Item.t) :
  hasTracks item = false
  \/ exists it tr, item = Some it /\ Item.tracks it = Some tr.
Proof.
  destruct item as [it|]; [|left; reflexivity].
  cbn. destruct (Item.tracks it) as [tr|] eqn:Htr; [right; eauto | left; reflexivity].
Qed.

(** The mapped function never raises on what the filter lets through. *)
Lemma formattedPlaylists_FormattedFrom (items : list (option Item.t)) :
  exists ps, formattedPlaylists items = Some ps /\ FormattedFrom items ps.
Proof.
  induction items as [|item items (ps & Heq & Hf)].
  - exists []. split; [reflexivity | constructor].
  - destruct (hasTracks_cases item) as [Hno | (it & tr & -> & Htr)].
    + exists ps. rewrite formattedPlaylists_cons_drop by exact Hno.
      split; [exact Heq | now constructor].
    + exists (formatItem it tr :: ps).
      rewrite (formattedPlaylists_cons_keep it tr items Htr), Heq.
      split; [reflexivity | now constructor].
Qed.

(** C7: the formatter never fails; its result is the input with exactly the
    entries without [tracks] dropped and the others formatted in input
    order; a name that is missing (or empty) becomes ['Unnamed Playlist'] and
    any other name is kept; artwork that is missing (no [images], an empty
    [images], a first image that is [null] or has no or an empty [url])
    becomes absent and any other first url is kept; a response of three
    entries of which exactly one has no [tracks] gives the two others,
    formatted, in their order; and that list is what [handleSpotifyAuth]
    stores in [playlists]. *)
Theorem catalog_formatter (items : list (option Item.t)) :
  (exists ps,
     formattedPlaylists items = Some ps
     /\ FormattedFrom items ps
     /\ forall token w,
         playlists (view (world
           (handleSpotifyAuth token (Response true (Some items)) w))) = ps)
  /\ (forall it tr,
        (Item.name it = None \/ Item.name it = Some "" ->
         Playlist.name (formatItem it tr) = "Unnamed Playlist")
        /\ (forall n,
              Item.name it = Some n -> n <> "" ->
              Playlist.name (formatItem it tr) = n))
  /\ (forall it tr,
        (Item.images it = None
         \/ Item.images it = Some []
         \/ (exists rest, Item.images it = Some (None :: rest))
         \/ (exists img rest,
               Item.images it = Some (Some img :: rest)
               /\ (Item.url img = None \/ Item.url img = Some "")) ->
         Playlist.imageUrl (formatItem it tr) = None)
        /\ (forall img rest u,
              Item.images it = Some (Some img :: rest) ->
              Item.url img = Some u -> u <> "" ->
              Playlist.imageUrl (formatItem it tr) = Some u))
  /\ (forall (x : option Item.t) (a b : Item.t) (ta tb : Item.tracksObject),
        hasTracks x = false ->
        Item.tracks a = Some ta ->
        Item.tracks b = Some tb ->
        formattedPlaylists [x; Some a; Some b] = Some [formatItem a ta; formatItem b tb]
        /\ formattedPlaylists [Some a; x; Some b] = Some [formatItem a ta; formatItem b tb]
        /\ formattedPlaylists [Some a; Some b; x] = Some [formatItem a ta; formatItem b tb]).
Proof.
  split; [|split; [|split]].
  - destruct (formattedPlaylists_FormattedFrom items) as (ps & Heq & Hf).
    exists ps. split; [exact Heq|]. split; [exact Hf|].
    intros token w. unfold handleSpotifyAuth, bind. cbn [value world effects].
    rewrite Heq. reflexivity.
  - intros it tr. split.
    + intros [H | H]; cbn; rewrite H; reflexivity.
    + intros n H Hn. cbn. rewrite H. unfold orString.
      apply truthy_true_iff in Hn. rewrite Hn. reflexivity.
  - intros it tr. split.
    + intros [H | [H | [(rest & H) | (img & rest & H & [Hu | Hu])]]];
        cbn; rewrite H; cbn; rewrite ?Hu; reflexivity.
    + intros img rest u H Hu Hne. cbn. rewrite H. cbn. rewrite Hu.
      apply truthy_true_iff in Hne. rewrite Hne. reflexivity.
  - intros x a b ta tb Hx Ha Hb.
    repeat (rewrite ?(formattedPlaylists_cons_drop x) by exact Hx;
            rewrite ?(formattedPlaylists_cons_keep a ta) by exact Ha;
            rewrite ?(formattedPlaylists_cons_keep b tb) by exact Hb).
    repeat split; reflexivity.
Qed.

(** *** The mount effect and its cleanup *)

Lemma mountEffect_world (w : World) :
  world (mountEffect w)
  = mkWorld (view w)
      (option_map
         (fun s => mkSocket (connected s)
                     (((listeners s ++ [OnLobbyUpdate]) ++ [OnGameStart]) ++ [OnError]))
         (socket w))
      (timers w) (clock w).
Proof.
  unfold mountEffect, bind, getSocket. cbn [value world].
  destruct (socket w) as [sk|] eqn:Hsk; [|destruct w; cbn in *; subst; reflexivity].
  assert (Hj : world ((if negb (connected sk) then joinLobby else skip) w) = w).
  { destruct (connected sk); [reflexivity|]. cbn [negb].
    unfold joinLobby, bind, getSocket. cbn [value world].
    destruct (_ || _ || _); reflexivity. }
  cbn [world subscribe modifySocket]. rewrite Hj. cbn. rewrite Hsk. reflexivity.
Qed.

Lemma mountEffect_emitted (w : World) :
  emitted (effects (mountEffect w))
  = match socket w with
    | Some sk =>
        if negb (connected sk) && truthy playerName && truthy lobbyId
        then [JoinLobby lobbyId playerName isHost]
        else []
    | None => []
    end.
Proof.
  unfold mountEffect, bind, getSocket. cbn [value world effects].
  destruct (socket w) as [sk|] eqn:Hsk; [|reflexivity].
  cbn [value world effects app subscribe modifySocket]. rewrite !app_nil_r.
  destruct (connected sk); [reflexivity|]. cbn [negb andb].
  unfold joinLobby, bind, getSocket. cbn [value world effects]. rewrite Hsk.
  cbn [isSome negb orb].
  destruct (truthy playerName), (truthy lobbyId); reflexivity.
Qed.

Lemma cleanupEffect_outcome (w : World) :
  cleanupEffect w
  = mkOutcome tt
      (mkWorld (view w)
         (option_map
            (fun s => mkSocket (connected s)
               (filter (fun l => negb (eventNameEqb (listensOn l) error))
                  (filter (fun l => negb (eventNameEqb (listensOn l) gameStart))
                     (filter (fun l => negb (eventNameEqb (listensOn l) lobbyUpdate))
                        (listeners s)))))
            (socket w))
         (timers w) (clock w))
      [].
Proof.
  unfold cleanupEffect, off, bind, modifySocket. cbn.
  destruct (socket w); reflexivity.
Qed.

Lemma filter_none {A : Type} (f : A -> bool) (l : list A) :
  Forall (fun a => f a = false) l -> filter f l = [].
Proof.
  induction 1 as [|a l Ha _ IH]; [reflexivity|]. cbn. rewrite Ha. exact IH.
Qed.

Lemma filter_all {A : Type} (f : A -> bool) (l : list A) :
  Forall (fun a => f a = true) l -> filter f l = l.
Proof.
  induction 1 as [|a l Ha _ IH]; [reflexivity|]. cbn. rewrite Ha, IH. reflexivity.
Qed.

(** A world in which nobody listens to [e] ignores it. *)
Lemma receive_unheard (e : ServerEvent) (w : World) :
  (forall sk, socket w = Some sk ->
              Forall (fun l => listensTo e l = false) (listeners sk)) ->
  receive e w = mkOutcome tt w [].
Proof.
  intros Hnone. unfold receive, bind, getSocket. cbn [value world effects].
  destruct (socket w) as [sk|] eqn:Hsk; [|reflexivity].
  specialize (Hnone sk eq_refl).
  rewrite (filter_none _ _ Hnone). cbn. rewrite Hsk. cbn.
  rewrite filter_all.
  - destruct w as [v s t c], sk; cbn in *; subst; reflexivity.
  - eapply Forall_impl; [|exact Hnone]. cbn. intros l Hl. rewrite Hl.
    rewrite andb_false_r. reflexivity.
Qed.

(** X1: after the cleanup of the mount effect, a [lobbyUpdate], [gameStart]
    or [error] event has no effect at all, also when a start was pending
    (the one-time [error] listener is removed with the others); a pending
    one-time [gameStateUpdate] listener is not removed. *)
Theorem cleanup_silences_all_but_gameStateUpdate (w : World) :
  let w' := world (cleanupEffect w) in
  (forall e, nameOf e <> gameStateUpdate -> receive e w' = mkOutcome tt w' [])
  /\ (forall l, listensOn l = gameStateUpdate -> subscribed l w -> subscribed l w')
  /\ view w' = view w
  /\ effects (cleanupEffect w) = [].
Proof.
  intros w'. unfold w'. rewrite cleanupEffect_outcome. cbn [world effects view].
  split; [|split; [|split; reflexivity]].
  - intros e He. apply receive_unheard. cbn [socket]. intros sk Hsk.
    destruct (socket w) as [sk0|]; [|discriminate]. cbn in Hsk. injection Hsk as <-.
    cbn [listeners]. apply Forall_forall. intros l Hin.
    apply filter_In in Hin. destruct Hin as [Hin H3].
    apply filter_In in Hin. destruct Hin as [Hin H2].
    apply filter_In in Hin. destruct Hin as [_ H1].
    unfold listensTo. destruct l, e; cbn in *; congruence.
  - intros l Hl (sk & Hsk & Hin). unfold subscribed. cbn [socket]. rewrite Hsk.
    eexists. split; [reflexivity|]. cbn [listeners].
    repeat (apply filter_In; split); try exact Hin; rewrite Hl; reflexivity.
Qed.

(** X2: on a socket whose listeners are only pending [gameStateUpdate]
    ones, the cleanup undoes the mount effect exactly, so running the effect
    again registers each listener once more and not twice; the join decision
    is taken again at each run. *)
Theorem mount_cleanup_round_trip (w : World) (sk : Socket) :
  socket w = Some sk ->
  Forall (fun l => listensOn l = gameStateUpdate) (listeners sk) ->
  world (steps [Mount; Unmount] w) = w
  /\ world (steps [Mount; Unmount; Mount] w) = world (mountEffect w)
  /\ emitted (effects (steps [Mount; Unmount; Mount] w))
     = (emitted (effects (mountEffect w)) ++ emitted (effects (mountEffect w)))%list.
Proof.
  intros Hsk Hls.
  assert (Hround : world (cleanupEffect (world (mountEffect w))) = w).
  { rewrite cleanupEffect_outcome, mountEffect_world. cbn. rewrite Hsk. cbn.
    rewrite !filter_app. cbn. rewrite !app_nil_r.
    rewrite !filter_all.
    1: destruct w as [v s t c], sk; cbn in *; subst; reflexivity.
    all: apply Forall_forall; intros l Hin;
      repeat (apply filter_In in Hin; destruct Hin as [Hin _]);
      rewrite Forall_forall in Hls; rewrite (Hls l Hin); reflexivity. }
  cbn [steps step]. unfold bind. cbn [world effects skip ret].
  rewrite Hround. split; [reflexivity|]. split; [reflexivity|].
  rewrite !emitted_app, cleanupEffect_outcome. cbn [effects emitted app].
  rewrite !app_nil_r. reflexivity.
Qed.

(** X3: with an empty player name or an empty lobby id the mount effect
    emits nothing, and still registers its three listeners. *)
Theorem mount_without_name_listens_without_joining (w : World) :
  playerName = "" \/ lobbyId = "" ->
  socket w <> None ->
  emitted (effects (mountEffect w)) = []
  /\ subscribed OnLobbyUpdate (world (mountEffect w))
  /\ subscribed OnGameStart (world (mountEffect w))
  /\ subscribed OnError (world (mountEffect w)).
Proof.
  intros Hempty Hs. split; [|apply mountEffect_subscribes; exact Hs].
  rewrite mountEffect_emitted. destruct (socket w) as [sk|]; [|reflexivity].
  destruct Hempty as [-> | ->]; cbn;
    rewrite ?andb_false_r; destruct (negb (connected sk)); reflexivity.
Qed.

(** *** The outcome of [receive] in closed form *)

Lemma runListener_outcome (l : Listener) (e : ServerEvent) (w : World) :
  listensTo e l = true ->
  runListener l e w
  = mkOutcome tt
      (mkWorld (listenerView l e (view w)) (socket w) (timers w) (clock w))
      (listenerEffects l e).
Proof.
  destruct l, e; try discriminate; intros _; cbn;
    try (destruct w; reflexivity).
  unfold snapshotApplied. destruct (Lobby.spotifyPlaylist lobby); reflexivity.
Qed.

Lemma runListeners_outcome (ls : list Listener) (e : ServerEvent) (w : World) :
  Forall (fun l => listensTo e l = true) ls ->
  runListeners ls e w
  = mkOutcome tt
      (mkWorld (fold_left (fun v l => listenerView l e v) ls (view w))
               (socket w) (timers w) (clock w))
      (flat_map (fun l => listenerEffects l e) ls).
Proof.
  intros Hall. revert w. induction Hall as [|l ls Hl _ IH]; intros w.
  - destruct w; reflexivity.
  - cbn [runListeners fold_left flat_map]. unfold bind.
    rewrite (runListener_outcome l e w Hl). cbn [value world effects].
    rewrite IH. reflexivity.
Qed.

Lemma receive_outcome (e : ServerEvent) (w : World) (sk : Socket) :
  socket w = Some sk ->
  receive e w
  = mkOutcome tt
      (mkWorld
         (fold_left (fun v l => listenerView l e v)
                    (filter (listensTo e) (listeners sk)) (view w))
         (Some (mkSocket (connected sk)
                  (filter (fun l => negb (isOnce l && listensTo e l)) (listeners sk))))
         (timers w) (clock w))
      (flat_map (fun l => listenerEffects l e) (filter (listensTo e) (listeners sk))).
Proof.
  intros Hsk. unfold receive, bind, getSocket. cbn [value world effects].
  rewrite Hsk. cbn [value world effects modifySocket app].
  rewrite runListeners_outcome.
  - cbn. rewrite Hsk. reflexivity.
  - apply Forall_forall. intros l Hl. apply filter_In in Hl. tauto.
Qed.

Lemma receive_without_socket (e : ServerEvent) (w : World) :
  socket w = None -> receive e w = mkOutcome tt w [].
Proof.
  intros Hs. unfold receive, bind, getSocket. cbn [value world effects].
  rewrite Hs. reflexivity.
Qed.

(** A relation on views that every listener respects is respected by a
    whole dispatch. *)
Lemma fold_listenerView_rel
    (R : View -> View -> Prop) (e : ServerEvent) (ls : list Listener) :
  (forall v, R v v) ->
  (forall a b c, R a b -> R b c -> R a c) ->
  (forall l v, In l ls -> R v (listenerView l e v)) ->
  forall v, R v (fold_left (fun v l => listenerView l e v) ls v).
Proof.
  intros Hrefl Htrans. induction ls as [|l ls IH]; intros Hstep v; [apply Hrefl|].
  cbn [fold_left]. eapply Htrans.
  - apply Hstep. left. reflexivity.
  - apply IH. intros l' v' Hin. apply Hstep. right. exact Hin.
Qed.

Lemma receive_view_rel (R : View -> View -> Prop) (e : ServerEvent) (w : World) :
  (forall v, R v v) ->
  (forall a b c, R a b -> R b c -> R a c) ->
  (forall l v, listensTo e l = true -> R v (listenerView l e v)) ->
  R (view w) (view (world (receive e w))).
Proof.
  intros Hrefl Htrans Hstep.
  destruct (socket w) as [sk|] eqn:Hsk.
  - rewrite (receive_outcome e w sk Hsk). cbn [world view].
    apply fold_listenerView_rel; try assumption.
    intros l v Hin. apply Hstep. apply filter_In in Hin. tauto.
  - rewrite (receive_without_socket e w Hsk). apply Hrefl.
Qed.

Lemma receive_timers_clock (e : ServerEvent) (w : World) :
  timers (world (receive e w)) = timers w
  /\ clock (world (receive e w)) = clock w.
Proof.
  destruct (socket w) as [sk|] eqn:Hsk.
  - rewrite (receive_outcome e w sk Hsk). split; reflexivity.
  - rewrite (receive_without_socket e w Hsk). split; reflexivity.
Qed.

(** X4: no sequence of server events changes the local [isReady], the
    token, the candidate playlists, the dialog flag or the pending timers:
    in particular a snapshot never corrects the local [isReady]. *)
Theorem server_events_leave_local_state (events : list ServerEvent) (w : World) :
  let w' := world (steps (map Receive events) w) in
  isReady (view w') = isReady (view w)
  /\ spotifyToken (view w') = spotifyToken (view w)
  /\ playlists (view w') = playlists (view w)
  /\ showPlaylistDialog (view w') = showPlaylistDialog (view w)
  /\ timers w' = timers w.
Proof.
  revert w. induction events as [|e events IH]; intros w; [repeat split; reflexivity|].
  cbn [map steps step]. unfold bind. cbn [world].
  specialize (IH (world (receive e w))). cbn zeta in IH.
  destruct IH as (H1 & H2 & H3 & H4 & H5).
  destruct (receive_timers_clock e w) as [Ht _].
  assert (Hv : isReady (view (world (receive e w))) = isReady (view w)
               /\ spotifyToken (view (world (receive e w))) = spotifyToken (view w)
               /\ playlists (view (world (receive e w))) = playlists (view w)
               /\ showPlaylistDialog (view (world (receive e w)))
                  = showPlaylistDialog (view w)).
  { apply (receive_view_rel
             (fun v v' => isReady v' = isReady v
                          /\ spotifyToken v' = spotifyToken v
                          /\ playlists v' = playlists v
                          /\ showPlaylistDialog v' = showPlaylistDialog v)).
    - repeat split; reflexivity.
    - intros a b c (A1 & A2 & A3 & A4) (B1 & B2 & B3 & B4).
      repeat split; congruence.
    - intros l v _. destruct l, e; cbn; try (repeat split; reflexivity).
      unfold snapshotApplied. destruct (Lobby.spotifyPlaylist lobby);
        repeat split; reflexivity. }
  destruct Hv as (V1 & V2 & V3 & V4).
  cbn zeta. repeat split; congruence.
Qed.

Lemma once_never_on (e : ServerEvent) (ls : list Listener) :
  nameOf e = lobbyUpdate \/ nameOf e = gameStart ->
  filter (fun l => negb (isOnce l && listensTo e l)) ls = ls.
Proof.
  intros He. apply filter_all. apply Forall_forall. intros l _.
  unfold listensTo. destruct l, e; cbn in *; try reflexivity;
    destruct He; discriminate.
Qed.

(** X5: a [gameStart] event, received while the listener of the mount effect
    is the only one on that event, sends the router to the game screen of
    this lobby with the announced playlist, and changes nothing else. *)
Theorem game_start_navigates (w : World) (sk : Socket) (playlistId : string) :
  socket w = Some sk ->
  filter (listensTo (GameStart playlistId)) (listeners sk) = [OnGameStart] ->
  receive (GameStart playlistId) w
  = mkOutcome tt w [RouterPush ("/game/" ++ lobbyId ++ "?playlist=" ++ playlistId)].
Proof.
  intros Hsk Hls. rewrite (receive_outcome _ w sk Hsk), Hls.
  rewrite once_never_on by (right; reflexivity). cbn.
  destruct w as [v s t c], sk; cbn in *; subst; reflexivity.
Qed.





Lemma receiveLobbyUpdates_world (snapshots : list Lobby.t) (w : World) :
  subscribed OnLobbyUpdate w ->
  world (receiveLobbyUpdates snapshots w)
  = mkWorld (fold_left (fun v lobby => snapshotApplied lobby v) snapshots (view w))
            (socket w) (timers w) (clock w).
Proof.
  revert w. induction snapshots as [|lobby rest IH]; intros w Hsub.
  - destruct w; reflexivity.
  - unfold receiveLobbyUpdates. cbn [map steps step fold_left]. unfold bind. cbn [world].
    fold (receiveLobbyUpdates rest (world (receive (LobbyUpdate lobby) w))).
    rewrite IH by (apply receive_lobbyUpdate_subscribed; exact Hsub).
    rewrite (receive_lobbyUpdate lobby w Hsub). reflexivity.
Qed.

Lemma selectedPlaylist_fold (snapshots : list Lobby.t) (v : View) :
  selectedPlaylist (fold_left (fun v lobby => snapshotApplied lobby v) snapshots v)
  = lastPlaylist snapshots (selectedPlaylist v).
Proof.
  unfold lastPlaylist. revert v. induction snapshots as [|lobby rest IH]; intros v;
    [reflexivity|].
  cbn [fold_left]. rewrite IH. f_equal.
  unfold snapshotApplied. destruct (Lobby.spotifyPlaylist lobby); reflexivity.
Qed.

(** X7: after a sequence of snapshots the selection is the playlist of the
    last snapshot that carried one, and the previous selection if none did;
    a selection is never cleared by snapshots, and the snapshots change
    nothing but [players] and [selectedPlaylist]. *)
Theorem selection_follows_last_carried_playlist
    (w : World) (snapshots : list Lobby.t) :
  subscribed OnLobbyUpdate w ->
  let after := world (receiveLobbyUpdates snapshots w) in
  selectedPlaylist (view after) = lastPlaylist snapshots (selectedPlaylist (view w))
  /\ (selectedPlaylist (view w) <> None -> selectedPlaylist (view after) <> None)
  /\ isStarting (view after) = isStarting (view w)
  /\ socket after = socket w.
Proof.
  intros Hsub after. unfold after. rewrite receiveLobbyUpdates_world by exact Hsub.
  cbn [view socket]. rewrite selectedPlaylist_fold.
  split; [reflexivity|]. split; [|split; [|reflexivity]].
  - generalize (selectedPlaylist (view w)). unfold lastPlaylist.
    induction snapshots as [|lobby rest IH]; intros cur Hcur; [exact Hcur|].
    cbn [fold_left]. apply IH. destruct (Lobby.spotifyPlaylist lobby); congruence.
  - generalize (view w). induction snapshots as [|lobby rest IH]; intros v; [reflexivity|].
    cbn [fold_left]. rewrite IH. unfold snapshotApplied.
    destruct (Lobby.spotifyPlaylist lobby); reflexivity.
Qed.

(** *** [handleSpotifyAuth] and [handlePlaylistSelect] *)

Lemma handleSpotifyAuth_outcome (token : string) (outcome : FetchOutcome) (w : World) :
  handleSpotifyAuth token outcome w
  = match outcome with
    | Response true (Some items) =>
        match formattedPlaylists items with
        | Some ps =>
            mkOutcome tt
              (mkWorld (setShowPlaylistDialog true
                          (setPlaylists ps (setSpotifyToken (Some token) (view w))))
                       (socket w) (timers w) (clock w))
              []
        | None =>
            mkOutcome tt
              (mkWorld (setSpotifyToken (Some token) (view w))
                       (socket w) (timers w) (clock w))
              [ConsoleError "Error fetching playlists:";
               Alert "Failed to load playlists. Please try again."]
        end
    | _ =>
        mkOutcome tt
          (mkWorld (setSpotifyToken (Some token) (view w))
                   (socket w) (timers w) (clock w))
          [ConsoleError "Error fetching playlists:";
           Alert "Failed to load playlists. Please try again."]
    end.
Proof.
  unfold handleSpotifyAuth, bind.
  destruct outcome as [|[|] [items|]]; try reflexivity.
  cbn [value world effects modifyView]. destruct (formattedPlaylists items); reflexivity.
Qed.

(** X8: [handleSpotifyAuth] stores the token whatever the request delivers
    and never emits.  On success it shows nothing to the user and opens the
    dialog; on failure (rejected request, response not ok, no [items]) it
    shows exactly one notification and leaves the candidate playlists and
    the dialog as they were.  Selection, players and [isStarting] are not
    touched. *)
Theorem spotify_auth_outcomes (token : string) (outcome : FetchOutcome) (w : World) :
  let r := handleSpotifyAuth token outcome w in
  spotifyToken (view (world r)) = Some token
  /\ emitted (effects r) = []
  /\ selectedPlaylist (view (world r)) = selectedPlaylist (view w)
  /\ players (view (world r)) = players (view w)
  /\ isStarting (view (world r)) = isStarting (view w)
  /\ (fetchSucceeded outcome = true ->
      alerts (effects r) = []
      /\ showPlaylistDialog (view (world r)) = true)
  /\ (fetchSucceeded outcome = false ->
      alerts (effects r) = ["Failed to load playlists. Please try again."]
      /\ playlists (view (world r)) = playlists (view w)
      /\ showPlaylistDialog (view (world r)) = showPlaylistDialog (view w)).
Proof.
  intros r. unfold r. rewrite handleSpotifyAuth_outcome.
  destruct outcome as [|[|] [items|]]; cbn [fetchSucceeded];
    try (repeat split; try reflexivity; discriminate).
  destruct (formattedPlaylists_FormattedFrom items) as (ps & -> & _).
  repeat split; try reflexivity; discriminate.
Qed.

Lemma orString_nonempty (s d : string) : d <> "" -> orString s d <> "".
Proof.
  intros Hd. unfold orString. destruct (truthy s) eqn:Hs; [|exact Hd].
  apply truthy_true_iff. exact Hs.
Qed.

Lemma formatItem_well_formed (it : Item.t) (tr : Item.tracksObject) :
  Playlist.name (formatItem it tr) <> ""
  /\ Playlist.imageUrl (formatItem it tr) <> Some ""
  /\ Playlist.id (formatItem it tr) = Item.id it.
Proof.
  split; [|split; [|reflexivity]].
  - cbn. destruct (Item.name it); [apply orString_nonempty|]; discriminate.
  - cbn. unfold firstImageUrl.
    destruct (Item.images it) as [[|[img|] rest]|]; try discriminate.
    destruct (Item.url img) as [u|]; [|discriminate].
    destruct (truthy u) eqn:Hu; [|discriminate].
    apply truthy_true_iff in Hu. congruence.
Qed.

Lemma FormattedFrom_facts (items : list (option Item.t)) (ps : list Playlist.t) :
  FormattedFrom items ps ->
  List.length ps = List.length (filter hasTracks items)
  /\ Forall (fun p => Playlist.name p <> "" /\ Playlist.imageUrl p <> Some "") ps
  /\ (forall p, In p ps ->
        exists it tr, In (Some it) items /\ Item.tracks it = Some tr /\ p = formatItem it tr).
Proof.
  induction 1 as [|item items ps Hno _ (IHl & IHf & IHi)
                  |it tr items ps Htr _ (IHl & IHf & IHi)].
  - repeat split; [constructor | intros p []].
  - cbn [filter]. rewrite Hno. split; [exact IHl|]. split; [exact IHf|].
    intros p Hin. destruct (IHi p Hin) as (it & tr & Hit & Htr & ->).
    exists it, tr. split; [right; exact Hit | split; [exact Htr | reflexivity]].
  - cbn [filter hasTracks]. rewrite Htr. cbn [isSome List.length].
    split; [f_equal; exact IHl|]. split.
    + constructor; [|exact IHf].
      destruct (formatItem_well_formed it tr) as (Hn & Hi & _). split; assumption.
    + intros p [<- | Hin].
      * exists it, tr. split; [left; reflexivity | split; [exact Htr | reflexivity]].
      * destruct (IHi p Hin) as (it' & tr' & Hit & Htr' & ->).
        exists it', tr'. split; [right; exact Hit | split; [exact Htr' | reflexivity]].
Qed.

(** X9: what the formatter returns is well formed: one playlist per entry
    with [tracks], hence never more than the response had entries; every
    playlist has a non-empty name; artwork, when present, is a non-empty
    url; and every playlist is the formatting of an entry of the
    response. *)
Theorem formatted_playlists_well_formed
    (items : list (option Item.t)) (ps : list Playlist.t) :
  formattedPlaylists items = Some ps ->
  List.length ps = List.length (filter hasTracks items)
  /\ (List.length ps <= List.length items)%nat
  /\ Forall (fun p => Playlist.name p <> "" /\ Playlist.imageUrl p <> Some "") ps
  /\ (forall p, In p ps ->
        exists it tr, In (Some it) items /\ Item.tracks it = Some tr /\ p = formatItem it tr).
Proof.
  intros Heq. destruct (formattedPlaylists_FormattedFrom items) as (ps' & Heq' & Hf).
  assert (ps' = ps) by congruence. subst ps'.
  destruct (FormattedFrom_facts items ps Hf) as (Hl & Hwf & Hin).
  split; [exact Hl|]. split; [|split; assumption].
  rewrite Hl. apply filter_length_le.
Qed.

Lemma handlePlaylistSelect_outcome (playlist : Playlist.t) (w : World) :
  handlePlaylistSelect playlist w
  = if isSome (socket w)
    then mkOutcome tt
           (mkWorld (setShowPlaylistDialog false
                       (setSelectedPlaylist (Some playlist) (view w)))
                    (socket w) (timers w) (clock w))
           [Emit (UpdatePlaylist lobbyId (Playlist.id playlist) (Playlist.name playlist))]
    else mkOutcome tt w [].
Proof.
  unfold handlePlaylistSelect, bind, getSocket. cbn [value world effects].
  destruct (socket w) as [sk|] eqn:Hsk; cbn; [rewrite Hsk|]; reflexivity.
Qed.

(** X10: selecting a playlist.  Without a socket nothing happens at all.
    With one, the playlist becomes the selection, the dialog closes and one
    [updatePlaylist] message is emitted that carries the lobby id and only
    the id and the name of the playlist: two playlists that agree on id and
    name produce the same message, whatever their track counts and
    artwork. *)
Theorem playlist_select_emits_id_and_name (playlist : Playlist.t) (w : World) :
  (socket w = None -> handlePlaylistSelect playlist w = mkOutcome tt w [])
  /\ (socket w <> None ->
      effects (handlePlaylistSelect playlist w)
      = [Emit (UpdatePlaylist lobbyId (Playlist.id playlist) (Playlist.name playlist))]
      /\ selectedPlaylist (view (world (handlePlaylistSelect playlist w))) = Some playlist
      /\ showPlaylistDialog (view (world (handlePlaylistSelect playlist w))) = false)
  /\ (forall other,
        Playlist.id other = Playlist.id playlist ->
        Playlist.name other = Playlist.name playlist ->
        effects (handlePlaylistSelect other w) = effects (handlePlaylistSelect playlist w)).
Proof.
  split; [|split].
  - intros Hs. rewrite handlePlaylistSelect_outcome, Hs. reflexivity.
  - intros Hs. rewrite handlePlaylistSelect_outcome.
    destruct (socket w); [|congruence]. repeat split; reflexivity.
  - intros other Hid Hname. rewrite !handlePlaylistSelect_outcome, Hid, Hname.
    destruct (isSome (socket w)); reflexivity.
Qed.

(** *** The remaining steps in closed form *)

Lemma runTimer_outcome (cb : TimerCallback) (w : World) :
  runTimer cb w
  = mkOutcome tt (mkWorld (timerView cb (view w)) (socket w) (timers w) (clock w))
      (timerEffects cb).
Proof. destruct cb as [[|]]; destruct w; reflexivity. Qed.

Lemma runTimers_outcome (cbs : list TimerCallback) (w : World) :
  runTimers cbs w
  = mkOutcome tt
      (mkWorld (fold_left (fun v cb => timerView cb v) cbs (view w))
               (socket w) (timers w) (clock w))
      (flat_map timerEffects cbs).
Proof.
  revert w. induction cbs as [|cb cbs IH]; intros w; [destruct w; reflexivity|].
  cbn [runTimers fold_left flat_map]. unfold bind. rewrite runTimer_outcome.
  cbn [value world effects]. rewrite IH. reflexivity.
Qed.

Lemma elapse_outcome (ms : Z) (w : World) :
  elapse ms w
  = mkOutcome tt
      (mkWorld
         (fold_left (fun v cb => timerView cb v)
            (map callback (filter (fun t => due t <=? clock w + ms) (timers w)))
            (view w))
         (socket w)
         (filter (fun t => negb (due t <=? clock w + ms)) (timers w))
         (clock w + ms))
      (flat_map timerEffects
         (map callback (filter (fun t => due t <=? clock w + ms) (timers w)))).
Proof. unfold elapse. rewrite runTimers_outcome. reflexivity. Qed.

Lemma inert_callbacks (ts : list Timer) (v : View) :
  Forall (fun t => callback t = StartTimeout false) ts ->
  fold_left (fun v cb => timerView cb v) (map callback ts) v = v
  /\ flat_map timerEffects (map callback ts) = [].
Proof.
  induction 1 as [|t ts Ht _ (IHv & IHe)]; [split; reflexivity|].
  cbn [map fold_left flat_map]. rewrite Ht. cbn [timerView timerEffects app].
  split; assumption.
Qed.

Lemma Forall_filter {A : Type} (P : A -> Prop) (f : A -> bool) (l : list A) :
  Forall P l -> Forall P (filter f l).
Proof.
  intros H. apply Forall_forall. intros a Ha. apply filter_In in Ha.
  rewrite Forall_forall in H. apply H. tauto.
Qed.

Lemma elapse_inert (ms : Z) (w : World) :
  timersInert w ->
  elapse ms w
  = mkOutcome tt
      (mkWorld (view w) (socket w)
               (filter (fun t => negb (due t <=? clock w + ms)) (timers w))
               (clock w + ms))
      [].
Proof.
  intros Hin. rewrite elapse_outcome.
  destruct (inert_callbacks (filter (fun t => due t <=? clock w + ms) (timers w)) (view w))
    as [Hv He]; [apply Forall_filter; exact Hin|].
  rewrite Hv, He. reflexivity.
Qed.

Lemma handleReady_outcome (w : World) :
  handleReady w
  = if isSome (socket w)
    then mkOutcome tt
           (mkWorld (setIsReady (negb (isReady (view w))) (view w))
                    (socket w) (timers w) (clock w))
           [Emit (ToggleReady lobbyId)]
    else mkOutcome tt w [].
Proof.
  unfold handleReady, bind, getSocket, getView. cbn [value world effects].
  destruct (socket w) as [sk|] eqn:Hsk; cbn; [rewrite Hsk|]; reflexivity.
Qed.

Lemma clickReady_outcome (w : World) :
  clickReady w
  = if negb isHost && isSome (socket w)
    then mkOutcome tt
           (mkWorld (setIsReady (negb (isReady (view w))) (view w))
                    (socket w) (timers w) (clock w))
           [Emit (ToggleReady lobbyId)]
    else mkOutcome tt w [].
Proof.
  unfold clickReady. destruct isHost; cbn [negb andb]; [reflexivity|].
  apply handleReady_outcome.
Qed.

(** The three ways a click on the start button can go. *)
Lemma clickStart_cases (w : World) :
  clickStart w = mkOutcome tt w []
  \/ clickStart w = mkOutcome tt w [ConsoleError "Missing required data:"]
  \/ exists sk playlist token,
       socket w = Some sk
       /\ startRequirements w = Some (playlist, token)
       /\ startDisabled (view w) = false
       /\ isHost = true
       /\ clickStart w
          = mkOutcome tt
              (mkWorld
                 (setIsStarting true (view w))
                 (Some (mkSocket (connected sk)
                          ((listeners sk
                            ++ [OnceGameStateUpdate (Playlist.id playlist) token])
                           ++ [OnceError])))
                 (timers w ++ [mkTimer (clock w + 5000) (StartTimeout false)])
                 (clock w))
              [ConsoleLog "Starting game with:"; Emit (StartGame lobbyId token)].
Proof.
  rewrite clickStart_unfold.
  destruct (startControlRendered (view w) && negb (startDisabled (view w))) eqn:Hc;
    [|left; reflexivity].
  apply andb_true_iff in Hc. destruct Hc as [Hr Hd]. apply negb_true_iff in Hd.
  destruct (startRequirements w) as [[p t]|] eqn:Hreq.
  - right. right.
    destruct (socket w) as [sk|] eqn:Hsk;
      [|apply startRequirements_Some_iff in Hreq; rewrite Hsk in Hreq; tauto].
    exists sk, p, t. split; [reflexivity|]. split; [reflexivity|]. split; [exact Hd|].
    split; [unfold startControlRendered in Hr; apply andb_true_iff in Hr; tauto|].
    rewrite (handleStartGame_accepts w sk p t Hsk Hreq).
    apply startDisabled_false_iff in Hd. destruct Hd as (_ & _ & _ & Hi).
    rewrite Hi. reflexivity.
  - right. left. apply handleStartGame_rejects. exact Hreq.
Qed.

Lemma world_steps_cons (s : Step) (ss : list Step) (w : World) :
  world (steps (s :: ss) w) = world (steps ss (world (step s w))).
Proof. reflexivity. Qed.

Lemma effects_steps_cons (s : Step) (ss : list Step) (w : World) :
  effects (steps (s :: ss) w)
  = (effects (step s w) ++ effects (steps ss (world (step s w))))%list.
Proof. reflexivity. Qed.

(** *** Where emitted messages come from *)

Lemma step_emitted (s : Step) (w : World) (m : ClientMessage) :
  In m (emitted (effects (step s w))) ->
  match m with
  | JoinLobby l n h =>
      s = Mount /\ l = lobbyId /\ n = playerName /\ h = isHost
      /\ playerName <> "" /\ lobbyId <> ""
      /\ exists sk, socket w = Some sk /\ connected sk = false
  | ToggleReady l =>
      s = ClickReady /\ l = lobbyId /\ isHost = false /\ socket w <> None
  | UpdatePlaylist l i n =>
      l = lobbyId /\ socket w <> None
      /\ exists p, s = SelectPlaylist p /\ i = Playlist.id p /\ n = Playlist.name p
  | StartGame l t =>
      s = ClickStart /\ l = lobbyId /\ isHost = true /\ socket w <> None
      /\ spotifyToken (view w) = Some t /\ t <> ""
      /\ startDisabled (view w) = false
  end.
Proof.
  destruct s; cbn [step].
  - rewrite mountEffect_emitted. destruct (socket w) as [sk|] eqn:Hsk; [|intros []].
    destruct (negb (connected sk) && truthy playerName && truthy lobbyId) eqn:Hc;
      [|intros []].
    apply andb_true_iff in Hc. destruct Hc as [Hc Hl].
    apply andb_true_iff in Hc. destruct Hc as [Hc Hn].
    apply negb_true_iff in Hc. apply truthy_true_iff in Hn, Hl.
    intros [<- | []]. repeat split; try assumption. exists sk. split; [reflexivity|exact Hc].
  - rewrite cleanupEffect_outcome. intros [].
  - destruct (receive_frame e w) as (-> & _). intros [].
  - rewrite handleSpotifyAuth_outcome.
    destruct outcome as [|[|] [items|]]; try (intros []).
    destruct (formattedPlaylists items); intros [].
  - rewrite handlePlaylistSelect_outcome.
    destruct (socket w) as [sk|] eqn:Hsk; [|intros []].
    intros [<- | []]. split; [reflexivity|]. split; [discriminate|].
    exists playlist. repeat split; reflexivity.
  - destruct (clickStart_cases w)
      as [-> | [-> | (sk & p & t & Hsk & Hreq & Hd & Hh & ->)]];
      [intros [] | intros [] |].
    intros [<- | []]. apply startRequirements_Some_iff in Hreq.
    destruct Hreq as (Hs & _ & Ht & Hne). repeat split; assumption.
  - rewrite clickReady_outcome.
    destruct (negb isHost && isSome (socket w)) eqn:Hc; [|intros []].
    apply andb_true_iff in Hc. destruct Hc as [Hh Hs]. apply negb_true_iff in Hh.
    apply isSome_true_iff in Hs.
    intros [<- | []]. repeat split; assumption.
  - rewrite elapse_outcome. cbn [effects].
    generalize (map callback (filter (fun t => due t <=? clock w + ms) (timers w))).
    intros cbs. induction cbs as [|[[|]] cbs IH]; cbn; [intros [] | exact IH | exact IH].
Qed.

(** A message emitted by a run was emitted by one of its steps. *)
Lemma emitted_steps_origin (ss : list Step) (w : World) (m : ClientMessage) :
  In m (emitted (effects (steps ss w))) ->
  exists before s after,
    ss = (before ++ s :: after)%list
    /\ In m (emitted (effects (step s (world (steps before w))))).
Proof.
  revert w. induction ss as [|s ss IH]; intros w; [intros []|].
  rewrite effects_steps_cons, emitted_app, in_app_iff. intros [Hin | Hin].
  - exists [], s, ss. split; [reflexivity | exact Hin].
  - destruct (IH _ Hin) as (before & s' & after & -> & Hin').
    exists (s :: before), s', after. split; [reflexivity | exact Hin'].
Qed.

(** X11: in any run of the component, a [startGame] message was emitted by a
    click on the start button, by the host, with a socket at hand, at a
    moment when a playlist was selected, the token was the non-empty one the
    message carries, every player that is not the host was ready and no
    start was in flight; it carries the lobby id of the route. *)
Theorem start_game_only_from_enabled_control
    (ss : list Step) (w : World) (l t : string) :
  In (StartGame l t) (emitted (effects (steps ss w))) ->
  exists before after,
    ss = (before ++ ClickStart :: after)%list
    /\ l = lobbyId
    /\ isHost = true
    /\ socket (world (steps before w)) <> None
    /\ selectedPlaylist (view (world (steps before w))) <> None
    /\ spotifyToken (view (world (steps before w))) = Some t
    /\ t <> ""
    /\ allNonHostReady (players (view (world (steps before w))))
    /\ isStarting (view (world (steps before w))) = false.
Proof.
  intros Hin. destruct (emitted_steps_origin ss w _ Hin) as (before & s & after & -> & Hs).
  apply step_emitted in Hs. destruct Hs as (-> & -> & Hh & Hsock & Ht & Hne & Hd).
  apply startDisabled_false_iff in Hd. destruct Hd as (Hp & _ & Hr & Hi).
  exists before, after. repeat split; assumption.
Qed.

(** X12: every message the component ever emits carries the lobby id of the
    route; [startGame] is emitted only by a host and [toggleReady] only by a
    player that is not the host; [joinLobby] carries the player name and the
    host flag of the route. *)
Theorem emitted_messages_belong_to_lobby_and_role
    (ss : list Step) (w : World) (m : ClientMessage) :
  In m (emitted (effects (steps ss w))) ->
  lobbyOf m = lobbyId
  /\ match m with
     | StartGame _ _ => isHost = true
     | ToggleReady _ => isHost = false
     | JoinLobby _ n h => n = playerName /\ h = isHost /\ n <> ""
     | UpdatePlaylist _ _ _ => True
     end.
Proof.
  intros Hin. destruct (emitted_steps_origin ss w _ Hin) as (before & s & after & _ & Hs).
  apply step_emitted in Hs. destruct m; cbn [lobbyOf].
  - destruct Hs as (_ & -> & -> & -> & Hn & _). repeat split; assumption.
  - destruct Hs as (_ & -> & Hh & _). split; [reflexivity | exact Hh].
  - destruct Hs as (-> & _). split; [reflexivity | exact I].
  - destruct Hs as (_ & -> & Hh & _). split; [reflexivity | exact Hh].
Qed.

(** *** What every step keeps *)

Lemma fold_view_rel {X : Type}
    (R : View -> View -> Prop) (g : View -> X -> View) (xs : list X) :
  (forall v, R v v) ->
  (forall a b c, R a b -> R b c -> R a c) ->
  (forall x v, In x xs -> R v (g v x)) ->
  forall v, R v (fold_left g xs v).
Proof.
  intros Hrefl Htrans. induction xs as [|x xs IH]; intros Hstep v; [apply Hrefl|].
  cbn [fold_left]. eapply Htrans.
  - apply Hstep. left. reflexivity.
  - apply IH. intros x' v' Hin. apply Hstep. right. exact Hin.
Qed.

Lemma step_socket_timers (s : Step) (w : World) :
  isSome (socket (world (step s w))) = isSome (socket w)
  /\ (timersInert w -> timersInert (world (step s w))).
Proof.
  unfold timersInert. destruct s; cbn [step].
  - rewrite mountEffect_world. cbn. destruct (socket w); split; auto.
  - rewrite cleanupEffect_outcome. cbn. destruct (socket w); split; auto.
  - destruct (socket w) as [sk|] eqn:Hsk.
    + rewrite (receive_outcome e w sk Hsk). cbn. rewrite ?Hsk. split; auto.
    + rewrite (receive_without_socket e w Hsk). cbn. rewrite ?Hsk. split; auto.
  - rewrite handleSpotifyAuth_outcome.
    destruct outcome as [|[|] [items|]]; try (split; auto; fail).
    destruct (formattedPlaylists items); split; auto.
  - rewrite handlePlaylistSelect_outcome.
    destruct (socket w) eqn:Hsk; cbn; rewrite ?Hsk; split; auto.
  - destruct (clickStart_cases w)
      as [-> | [-> | (sk & p & t & Hsk & _ & _ & _ & ->)]];
      [split; auto | split; auto |].
    cbn. rewrite ?Hsk. split; [reflexivity|]. intros Hin.
    apply Forall_app. split; [exact Hin|]. constructor; [reflexivity | constructor].
  - rewrite clickReady_outcome.
    destruct (negb isHost && isSome (socket w)); split; auto.
  - rewrite elapse_outcome. cbn. split; [reflexivity|]. apply Forall_filter.
Qed.

Lemma steps_socket_timers (ss : list Step) (w : World) :
  isSome (socket (world (steps ss w))) = isSome (socket w)
  /\ (timersInert w -> timersInert (world (steps ss w))).
Proof.
  revert w. induction ss as [|s ss IH]; intros w; [split; auto|].
  rewrite world_steps_cons.
  destruct (IH (world (step s w))) as [Hs Ht].
  destruct (step_socket_timers s w) as [Hs' Ht'].
  split; [congruence | auto].
Qed.

Section StepRelation.

(** A reflexive and transitive relation on views that every state setter
    call of the handlers respects. *)
Variable R : View -> View -> Prop.
Hypothesis R_refl : forall v, R v v.
Hypothesis R_trans : forall a b c, R a b -> R b c -> R a c.
Hypothesis R_token : forall t v, R v (setSpotifyToken (Some t) v).
Hypothesis R_playlists : forall ps v, R v (setPlaylists ps v).
Hypothesis R_dialog : forall b v, R v (setShowPlaylistDialog b v).
Hypothesis R_selected : forall p v, R v (setSelectedPlaylist (Some p) v).
Hypothesis R_starting : forall v, R v (setIsStarting true v).
Hypothesis R_ready : forall b v, R v (setIsReady b v).

(** Then a step respects it, provided the listeners and timer callbacks it
    runs do. *)
Lemma step_view_rel (s : Step) (w : World) :
  (forall e l v, s = Receive e -> listensTo e l = true -> R v (listenerView l e v)) ->
  (forall ms t v, s = Elapse ms -> In t (timers w) -> R v (timerView (callback t) v)) ->
  R (view w) (view (world (step s w))).
Proof.
  intros Hl Ht. destruct s; cbn [step].
  - rewrite mountEffect_world. apply R_refl.
  - rewrite cleanupEffect_outcome. apply R_refl.
  - apply receive_view_rel; try assumption. intros l v. apply Hl. reflexivity.
  - rewrite handleSpotifyAuth_outcome.
    destruct outcome as [|[|] [items|]]; cbn; try apply R_token.
    destruct (formattedPlaylists items); cbn; [|apply R_token].
    eapply R_trans; [apply R_token|]. eapply R_trans; [apply R_playlists|].
    apply R_dialog.
  - rewrite handlePlaylistSelect_outcome. destruct (isSome (socket w)); cbn;
      [|apply R_refl].
    eapply R_trans; [apply R_selected | apply R_dialog].
  - destruct (clickStart_cases w)
      as [-> | [-> | (sk & p & t & _ & _ & _ & _ & ->)]]; cbn;
      [apply R_refl | apply R_refl | apply R_starting].
  - rewrite clickReady_outcome. destruct (negb isHost && isSome (socket w)); cbn;
      [apply R_ready | apply R_refl].
  - rewrite elapse_outcome. cbn [world view].
    apply fold_view_rel; try assumption.
    intros cb v Hin. apply in_map_iff in Hin. destruct Hin as (t & <- & Hin).
    apply filter_In in Hin. apply (Ht ms); [reflexivity | tauto].
Qed.

End StepRelation.

Lemma steps_timersInert_elapse (ss : list Step) (w : World) (ms : Z) :
  timersInert w ->
  timersInert (world (steps ss w))
  /\ elapse ms (world (steps ss w))
     = mkOutcome tt
         (mkWorld (view (world (steps ss w))) (socket (world (steps ss w)))
            (filter (fun t => negb (due t <=? clock (world (steps ss w)) + ms))
                    (timers (world (steps ss w))))
            (clock (world (steps ss w)) + ms))
         [].
Proof.
  intros Hin. assert (H : timersInert (world (steps ss w)))
    by (apply steps_socket_timers; exact Hin).
  split; [exact H | apply elapse_inert; exact H].
Qed.

(** X13: every timer the component arms through its start button carries the
    value [false]; so in every world reached from one whose timers do (a
    fresh mount has none), time passing alone is never visible: it logs
    nothing and leaves the view as it is. *)
Theorem time_passing_is_never_visible (ss : list Step) (w : World) (ms : Z) :
  timersInert w ->
  let w' := world (steps ss w) in
  timersInert w'
  /\ effects (elapse ms w') = []
  /\ view (world (elapse ms w')) = view w'.
Proof.
  intros Hin w'. subst w'. destruct (steps_timersInert_elapse ss w ms Hin) as [H ->].
  split; [exact H|]. split; reflexivity.
Qed.

Lemma stuck_step (s : Step) (w : World) :
  timersInert w ->
  isStarting (view w) = true ->
  isErrorEvent s = false ->
  isStarting (view (world (step s w))) = true
  /\ forall l t, ~ In (StartGame l t) (emitted (effects (step s w))).
Proof.
  intros Hin Hi He. split.
  - revert Hi.
    apply (step_view_rel (fun v v' => isStarting v = true -> isStarting v' = true));
      try (intros; cbn; auto; fail).
    + intros e l v -> _. destruct l, e; cbn; auto; try discriminate.
      unfold snapshotApplied. destruct (Lobby.spotifyPlaylist lobby); auto.
    + intros ms t v _ Ht. unfold timersInert in Hin. rewrite Forall_forall in Hin.
      rewrite (Hin t Ht). cbn. auto.
  - intros l t Hs. apply step_emitted in Hs.
    destruct Hs as (_ & _ & _ & _ & _ & _ & Hd).
    apply startDisabled_false_iff in Hd. destruct Hd as (_ & _ & _ & Hfalse). congruence.
Qed.

(** X14: once a start is in flight it stays in flight until an [error] event
    arrives: in a run without [error] events, from a world whose timers were
    armed by the start button, [isStarting] stays [true] and no further
    [startGame] is emitted (neither a success event nor the timeout resets
    it). *)
Theorem start_in_flight_until_error (ss : list Step) (w : World) :
  timersInert w ->
  isStarting (view w) = true ->
  forallb (fun s => negb (isErrorEvent s)) ss = true ->
  isStarting (view (world (steps ss w))) = true
  /\ forall l t, ~ In (StartGame l t) (emitted (effects (steps ss w))).
Proof.
  revert w. induction ss as [|s ss IH]; intros w Hin Hi Hss.
  - split; [exact Hi | intros l t []].
  - cbn [forallb] in Hss. apply andb_true_iff in Hss. destruct Hss as [Hs Hss].
    apply negb_true_iff in Hs.
    destruct (stuck_step s w Hin Hi Hs) as [Hi' Hno].
    destruct (IH (world (step s w))) as [Hi'' Hno'];
      [apply step_socket_timers; exact Hin | exact Hi' | exact Hss |].
    rewrite world_steps_cons, effects_steps_cons. split; [exact Hi''|].
    intros l t Hm. rewrite emitted_app, in_app_iff in Hm.
    destruct Hm as [Hm | Hm]; [exact (Hno l t Hm) | exact (Hno' l t Hm)].
Qed.

Lemma lifetime_step (s : Step) (w : World) :
  (selectedPlaylist (view w) <> None ->
   selectedPlaylist (view (world (step s w))) <> None)
  /\ (spotifyToken (view w) <> None ->
      spotifyToken (view (world (step s w))) <> None).
Proof.
  apply (step_view_rel
           (fun v v' => (selectedPlaylist v <> None -> selectedPlaylist v' <> None)
                        /\ (spotifyToken v <> None -> spotifyToken v' <> None)));
    try (intros; cbn; split; (auto || discriminate); fail).
  - intros a b c [A1 A2] [B1 B2]. split; auto.
  - intros e l v _ _. destruct l, e; cbn; try (split; auto; fail).
    unfold snapshotApplied. destruct (Lobby.spotifyPlaylist lobby); cbn;
      split; (auto || discriminate).
  - intros ms t v _ _. destruct (callback t) as [[|]]; cbn; split; auto.
Qed.

(** X15: nothing the component does ever clears the selection or the token:
    after any run, a selection that was there is still there (possibly
    another one) and a token that was there is still there. *)
Theorem selection_and_token_never_cleared (ss : list Step) (w : World) :
  let w' := world (steps ss w) in
  (selectedPlaylist (view w) <> None -> selectedPlaylist (view w') <> None)
  /\ (spotifyToken (view w) <> None -> spotifyToken (view w') <> None).
Proof.
  cbn zeta. split;
    revert w; induction ss as [|s ss IH]; intros w H; try exact H;
    rewrite world_steps_cons; apply IH; apply lifetime_step; exact H.
Qed.

(** *** The ready button *)

Lemma readyClicks_outcome (n : nat) (w : World) :
  isHost = false ->
  socket w <> None ->
  world (steps (repeat ClickReady n) w)
  = mkWorld (setIsReady (if Nat.even n then isReady (view w) else negb (isReady (view w)))
                        (view w))
            (socket w) (timers w) (clock w)
  /\ effects (steps (repeat ClickReady n) w)
     = repeat (Emit (ToggleReady lobbyId)) n.
Proof.
  intros Hh. revert w. induction n as [|n IH]; intros w Hs.
  - cbn. destruct w as [[] ? ? ?]; split; reflexivity.
  - cbn [repeat]. rewrite world_steps_cons, effects_steps_cons. cbn [step].
    rewrite clickReady_outcome, Hh. cbn [negb andb].
    destruct (socket w) as [sk|] eqn:Hsk; [|congruence]. cbn [isSome world effects].
    destruct (IH (mkWorld (setIsReady (negb (isReady (view w))) (view w))
                          (Some sk) (timers w) (clock w))) as [Hw He];
      [discriminate|].
    rewrite Hw, He. cbn [view socket timers clock isReady setIsReady
                          players spotifyToken playlists selectedPlaylist
                          showPlaylistDialog isStarting app].
    split; [|reflexivity].
    rewrite Nat.even_succ, <- Nat.negb_even.
    destruct (Nat.even n); cbn; rewrite ?negb_involutive; reflexivity.
Qed.

(** X16: clicks on the ready button compose: [n] clicks by a player that is
    not the host, with a socket at hand, log exactly [n] [toggleReady]
    messages and nothing else, and leave the local [isReady] where it was
    when [n] is even and negated when [n] is odd; [players], and with it
    what the button shows, is not touched. *)
Theorem ready_clicks_compose (n : nat) (w : World) :
  isHost = false ->
  socket w <> None ->
  let r := steps (repeat ClickReady n) w in
  effects r = repeat (Emit (ToggleReady lobbyId)) n
  /\ isReady (view (world r))
     = (if Nat.even n then isReady (view w) else negb (isReady (view w)))
  /\ players (view (world r)) = players (view w).
Proof.
  intros Hh Hs r. unfold r.
  destruct (readyClicks_outcome n w Hh Hs) as [-> ->]. repeat split; reflexivity.
Qed.

(** X17: what the ready button shows follows the snapshots, not the clicks:
    after any number of clicks the label is what it was, and after the next
    [lobbyUpdate] it is the label computed from that snapshot alone. *)
Theorem ready_label_follows_snapshots
    (socketId : option string) (n : nat) (lobby : Lobby.t) (w : World) :
  isHost = false ->
  subscribed OnLobbyUpdate w ->
  let clicked := world (steps (repeat ClickReady n) w) in
  readyButtonLabel socketId (players (view clicked))
  = readyButtonLabel socketId (players (view w))
  /\ readyButtonLabel socketId
       (players (view (world (receive (LobbyUpdate lobby) clicked))))
     = readyButtonLabel socketId (Lobby.players lobby).
Proof.
  intros Hh Hsub clicked.
  assert (Hs : socket w <> None) by (destruct Hsub as (sk & -> & _); discriminate).
  destruct (readyClicks_outcome n w Hh Hs) as [Hw _].
  unfold clicked. rewrite Hw. cbn [view players setIsReady]. split; [reflexivity|].
  rewrite receive_lobbyUpdate by exact Hsub.
  cbn [view]. rewrite players_snapshotApplied. reflexivity.
Qed.

(** X18: the current player is the first player whose id is the id of the
    socket: [isPlayerReady] holds exactly when such a player exists and the
    first one is ready; without a socket id it never holds. *)
Theorem is_player_ready_first_match (ps : list Player.t) :
  isPlayerReady None ps = false
  /\ forall sid,
       isPlayerReady (Some sid) ps = true
       <-> exists before p after,
             ps = (before ++ p :: after)%list
             /\ Player.id p = sid
             /\ Player.isReady p = true
             /\ Forall (fun q => Player.id q <> sid) before.
Proof.
  split; [reflexivity|]. intros sid. unfold isPlayerReady, currentPlayer.
  induction ps as [|q ps IH]; cbn [find].
  - split; [discriminate|]. intros (before & p & after & Heq & _).
    destruct before; discriminate.
  - destruct (String.eqb_spec (Player.id q) sid) as [Hq | Hq].
    + split.
      * intros Hr. exists [], q, ps. repeat split; auto.
      * intros (before & p & after & Heq & Hp & Hr & Hb).
        destruct before as [|b before]; cbn in Heq; injection Heq as -> ->.
        -- exact Hr.
        -- inversion Hb; subst. contradiction.
    + rewrite IH. split.
      * intros (before & p & after & -> & Hp & Hr & Hb).
        exists (q :: before), p, after. repeat split; auto.
      * intros (before & p & after & Heq & Hp & Hr & Hb).
        destruct before as [|b before]; cbn in Heq; injection Heq as -> ->.
        -- contradiction.
        -- inversion Hb; subst. exists before, p, after. repeat split; auto.
Qed.

(** *** Joins over whole runs *)




(** *** The [error] listeners over whole runs *)

Lemma error_filter_after_error (message : string) (ls : list Listener) :
  filter (fun l => eventNameEqb (listensOn l) error)
         (filter (fun l => negb (isOnce l && listensTo (Error message) l)) ls)
  = filter (fun l => negb (isOnce l))
           (filter (fun l => eventNameEqb (listensOn l) error) ls).
Proof.
  induction ls as [|l ls IH]; [reflexivity|].
  destruct l; cbn; rewrite ?IH; reflexivity.
Qed.

Lemma error_filter_after_other (e : ServerEvent) (ls : list Listener) :
  nameOf e <> error ->
  filter (fun l => eventNameEqb (listensOn l) error)
         (filter (fun l => negb (isOnce l && listensTo e l)) ls)
  = filter (fun l => eventNameEqb (listensOn l) error) ls.
Proof.
  intros He. induction ls as [|l ls IH]; [reflexivity|].
  unfold listensTo in *. destruct l, e; cbn in *; rewrite ?IH; try reflexivity;
    congruence.
Qed.

Lemma mountEffect_errorHandlersInPlace (w : World) :
  socket w <> None ->
  errorListeners w = [] ->
  timersInert w ->
  isStarting (view w) = false ->
  errorHandlersInPlace (world (mountEffect w)).
Proof.
  intros Hs He Ht Hi. unfold errorHandlersInPlace, errorListeners, timersInert in *.
  rewrite mountEffect_world. cbn [socket timers view].
  destruct (socket w) as [sk|]; [|congruence]. cbn [option_map listeners].
  split; [exact Ht|]. split; [discriminate|].
  rewrite !filter_app, He, Hi. reflexivity.
Qed.

Lemma step_errorHandlersInPlace (s : Step) (w : World) :
  isEffectStep s = false ->
  errorHandlersInPlace w ->
  errorHandlersInPlace (world (step s w)).
Proof.
  intros Hs (Ht & Hsock & He).
  assert (Ht' : timersInert (world (step s w))) by (apply step_socket_timers; exact Ht).
  destruct (socket w) as [sk|] eqn:Hsk; [|congruence].
  unfold errorHandlersInPlace. split; [exact Ht'|]. clear Ht'.
  unfold errorListeners in *. rewrite Hsk in He.
  destruct s; try discriminate; cbn [step].
  - (* Receive *)
    rewrite (receive_outcome e w sk Hsk). cbn [world socket view listeners].
    split; [discriminate|].
    destruct e as [lobby | pid | | message].
    + rewrite error_filter_after_other by discriminate. rewrite He. f_equal.
      assert (Hi : isStarting
                (fold_left (fun v l => listenerView l (LobbyUpdate lobby) v)
                   (filter (listensTo (LobbyUpdate lobby)) (listeners sk)) (view w))
              = isStarting (view w)).
      { apply (fold_listenerView_rel (fun v v' => isStarting v' = isStarting v));
          try congruence.
        intros l v _. destruct l; cbn; try reflexivity.
        unfold snapshotApplied. destruct (Lobby.spotifyPlaylist lobby); reflexivity. }
      rewrite Hi. reflexivity.
    + rewrite error_filter_after_other by discriminate. rewrite He. f_equal.
      assert (Hi : isStarting
                (fold_left (fun v l => listenerView l (GameStart pid) v)
                   (filter (listensTo (GameStart pid)) (listeners sk)) (view w))
              = isStarting (view w)).
      { apply (fold_listenerView_rel (fun v v' => isStarting v' = isStarting v));
          try congruence.
        intros l v _. destruct l; reflexivity. }
      rewrite Hi. reflexivity.
    + rewrite error_filter_after_other by discriminate. rewrite He. f_equal.
      assert (Hi : isStarting
                (fold_left (fun v l => listenerView l GameStateUpdate v)
                   (filter (listensTo GameStateUpdate) (listeners sk)) (view w))
              = isStarting (view w)).
      { apply (fold_listenerView_rel (fun v v' => isStarting v' = isStarting v));
          try congruence.
        intros l v _. destruct l; reflexivity. }
      rewrite Hi. reflexivity.
    + rewrite error_filter_after_error.
      change (filter (listensTo (Error message)) (listeners sk))
        with (filter (fun l => eventNameEqb (listensOn l) error) (listeners sk)).
      rewrite He. destruct (isStarting (view w)) eqn:Hi; cbn; rewrite ?Hi; reflexivity.
  - (* AuthSuccess *)
    rewrite handleSpotifyAuth_outcome.
    destruct outcome as [|[|] [items|]]; cbn; rewrite ?Hsk;
      try (split; [discriminate | exact He]).
    destruct (formattedPlaylists items); cbn; rewrite ?Hsk;
      (split; [discriminate | exact He]).
  - (* SelectPlaylist *)
    rewrite handlePlaylistSelect_outcome, Hsk. cbn.
    split; [discriminate | exact He].
  - (* ClickStart *)
    destruct (clickStart_cases w)
      as [-> | [-> | (sk0 & p & t & Hsk0 & _ & Hd & _ & ->)]]; cbn; rewrite ?Hsk;
      [split; [discriminate | exact He] | split; [discriminate | exact He] |].
    rewrite Hsk in Hsk0. injection Hsk0 as <-.
    split; [discriminate|]. cbn. rewrite !filter_app, He.
    apply startDisabled_false_iff in Hd. destruct Hd as (_ & _ & _ & Hi).
    rewrite Hi. reflexivity.
  - (* ClickReady *)
    rewrite clickReady_outcome.
    destruct (negb isHost && isSome (socket w)); cbn; rewrite ?Hsk;
      (split; [discriminate | exact He]).
  - (* Elapse *)
    rewrite (elapse_inert ms w Ht). cbn. rewrite Hsk.
    split; [discriminate | exact He].
Qed.

Lemma steps_errorHandlersInPlace (ss : list Step) (w : World) :
  forallb (fun s => negb (isEffectStep s)) ss = true ->
  errorHandlersInPlace w ->
  errorHandlersInPlace (world (steps ss w)).
Proof.
  revert w. induction ss as [|s ss IH]; intros w Hss Hw; [exact Hw|].
  cbn [forallb] in Hss. apply andb_true_iff in Hss. destruct Hss as [Hs Hss].
  apply negb_true_iff in Hs. rewrite world_steps_cons.
  apply IH; [exact Hss|]. apply step_errorHandlersInPlace; assumption.
Qed.

(** C10 (as amended): in every world reached from the mount effect without
    a cleanup or another run of the effect, while a start is in flight both
    the listener of the mount effect and the one-time listener of
    [handleStartGame] are registered on [error]; one [error] event runs
    both, in that order: the user is notified twice, the router is sent to
    the entry screen, [isStarting] is reset and the one-time listener is
    gone. *)
Theorem start_error_also_aborts_session
    (w0 : World) (ss : list Step) (message : string) :
  socket w0 <> None ->
  errorListeners w0 = [] ->
  timersInert w0 ->
  isStarting (view w0) = false ->
  forallb (fun s => negb (isEffectStep s)) ss = true ->
  let pending := world (steps (Mount :: ss) w0) in
  isStarting (view pending) = true ->
  let r := receive (Error message) pending in
  subscribed OnError pending
  /\ subscribed OnceError pending
  /\ effects r = [ Alert message; RouterPush "/";
                   ConsoleError "Error starting game:";
                   Alert "Failed to start game. Please try again." ]
  /\ alerts (effects r) = [message; "Failed to start game. Please try again."]
  /\ navigations (effects r) = ["/"]
  /\ isStarting (view (world r)) = false
  /\ subscribed OnError (world r)
  /\ ~ subscribed OnceError (world r).
Proof.
  intros Hs He Ht Hi Hss pending Hpending r.
  assert (Hinv : errorHandlersInPlace pending).
  { unfold pending. rewrite world_steps_cons. cbn [step].
    apply steps_errorHandlersInPlace; [exact Hss|].
    apply mountEffect_errorHandlersInPlace; assumption. }
  destruct Hinv as (_ & Hsock & Herr). unfold errorListeners in Herr.
  destruct (socket pending) as [sk|] eqn:Hsk; [|congruence].
  rewrite Hpending in Herr.
  assert (Hin : forall l, In l [OnError; OnceError] -> In l (listeners sk)).
  { intros l Hl. rewrite <- Herr in Hl. apply filter_In in Hl. tauto. }
  assert (Hr : r = mkOutcome tt
            (mkWorld (setIsStarting false (view pending))
               (Some (mkSocket (connected sk)
                  (filter (fun l => negb (isOnce l && listensTo (Error message) l))
                          (listeners sk))))
               (timers pending) (clock pending))
            [ Alert message; RouterPush "/";
              ConsoleError "Error starting game:";
              Alert "Failed to start game. Please try again." ]).
  { unfold r. rewrite (receive_outcome (Error message) pending sk Hsk).
    change (filter (listensTo (Error message)) (listeners sk))
      with (filter (fun l => eventNameEqb (listensOn l) error) (listeners sk)).
    rewrite Herr. reflexivity. }
  split; [exists sk; split; [exact Hsk | apply Hin; cbn; tauto]|].
  split; [exists sk; split; [exact Hsk | apply Hin; cbn; tauto]|].
  rewrite Hr. cbn [effects world view isStarting setIsStarting].
  split; [reflexivity|]. split; [reflexivity|]. split; [reflexivity|].
  split; [reflexivity|]. split.
  - eexists. split; [reflexivity|]. cbn [listeners]. apply filter_In.
    split; [apply Hin; cbn; tauto | reflexivity].
  - intros (sk' & [= <-] & Hin'). cbn [listeners] in Hin'.
    apply filter_In in Hin'. destruct Hin' as [_ Hf]. discriminate.
Qed.

End LobbyPage.

(** ** The properties at concrete inputs

    The host Ada in lobby ABCD, and the guest Bob. *)

Lemma sample_worlds_reached :
  world (steps "ABCD" "Ada" true [Mount] freshWorld) = mountedWorld
  /\ world (steps "ABCD" "Ada" true readyLobby freshWorld) = readyWorld
  /\ world (steps "ABCD" "Ada" true unreadyLobby freshWorld) = unreadyWorld
  /\ world (steps "ABCD" "Ada" true emptyTokenLobby freshWorld) = emptyTokenWorld.
Proof. repeat split; reflexivity. Qed.

Lemma cy_is_not_ready (ps : list Player.t) :
  In cy ps -> ~ allNonHostReady ps.
Proof. intros Hin H. specialize (H cy Hin eq_refl). discriminate. Qed.

(** Closes [subscribed l w] for a concrete world [w] and listener [l]. *)
Ltac listener_registered :=
  eexists; split; [reflexivity | cbn; tauto].

Lemma sample_worlds_subscribed :
  subscribed OnLobbyUpdate mountedWorld
  /\ subscribed OnError mountedWorld
  /\ subscribed OnLobbyUpdate readyWorld
  /\ subscribed OnError readyWorld.
Proof.
  repeat split; listener_registered.
Qed.

(** C1 at the host's view of [readyWorld], where the control is rendered and
    enabled, and of [unreadyWorld], where it is rendered and disabled. *)
Lemma start_control_enabled_iff_witness :
  startControlRendered true (view readyWorld) = true
  /\ startDisabled (view readyWorld) = false
  /\ startDisabled (view unreadyWorld) = true.
Proof.
  split; [reflexivity|]. split.
  - apply (proj1 (start_control_enabled_iff true (view readyWorld) eq_refl)).
    split; [discriminate|]. split; [discriminate|].
    split; [apply allNonHostReady_iff; reflexivity | reflexivity].
  - apply (proj2 (start_control_enabled_iff true (view unreadyWorld) eq_refl)).
    intros (_ & _ & Hready & _). revert Hready. apply cy_is_not_ready. cbn. tauto.
Defined.

(** C2 at a concrete input: the host clicks the enabled start control of
    [readyWorld] and five seconds pass. *)
Lemma start_timeout_never_reports_witness :
  socket readyWorld <> None
  /\ timers readyWorld = []
  /\ startDisabled (view readyWorld) = false
  /\ effects (elapse 5000 (world (clickStart "ABCD" true readyWorld))) = []
  /\ isStarting (view (world (elapse 5000 (world (clickStart "ABCD" true readyWorld)))))
     = true.
Proof.
  assert (Hs : socket readyWorld <> None) by discriminate.
  assert (Ht : timers readyWorld = []) by reflexivity.
  assert (Hd : startDisabled (view readyWorld) = false) by reflexivity.
  assert (Hms : 5000 <= 5000) by lia.
  destruct (start_timeout_never_reports "ABCD" true readyWorld 5000
              Hs Ht eq_refl Hd Hms) as (_ & _ & _ & He & _ & Hi).
  repeat split; assumption.
Defined.

(** C3 at [unreadyWorld], where the guest Cy is not ready and the click does
    nothing, and at [readyWorld], where the host's click starts the game. *)
Lemma start_game_guarded_witness :
  (effects (clickStart "ABCD" true unreadyWorld) = []
   /\ world (clickStart "ABCD" true unreadyWorld) = unreadyWorld)
  /\ emitted (effects (clickStart "ABCD" true readyWorld)) = [StartGame "ABCD" "token"]
  /\ isStarting (view (world (clickStart "ABCD" true readyWorld))) = true.
Proof.
  split.
  - apply (proj1 (start_game_guarded "ABCD" true unreadyWorld)).
    intros (_ & _ & Hready). revert Hready. apply cy_is_not_ready. cbn. tauto.
  - assert (Hs : socket readyWorld <> None) by discriminate.
    assert (Hp : selectedPlaylist (view readyWorld) <> None) by discriminate.
    assert (Hr : allNonHostReady (players (view readyWorld)))
      by (apply allNonHostReady_iff; reflexivity).
    assert (Hne : "token" <> "") by discriminate.
    exact (proj2 (proj2 (start_game_guarded "ABCD" true readyWorld))
             eq_refl Hs eq_refl Hp Hr "token" eq_refl Hne).
Defined.

(** C4 at a concrete input: two snapshots, the second without Bob and Cy. *)
Lemma players_equal_last_snapshot_witness :
  subscribed OnLobbyUpdate mountedWorld
  /\ players (view (world
        (receiveLobbyUpdates "ABCD" "Ada" true
           ([Lobby.make [ada; bob; cy] None] ++ [Lobby.make [ada] None])
           mountedWorld)))
     = [ada].
Proof.
  assert (Hsub : subscribed OnLobbyUpdate mountedWorld)
    by listener_registered.
  split; [exact Hsub|].
  exact (proj1 (players_equal_last_snapshot "ABCD" "Ada" true mountedWorld
                  [Lobby.make [ada; bob; cy] None] (Lobby.make [ada] None) Hsub)).
Defined.

(** C5 at a concrete input: a snapshot without a playlist, received by a
    view that has one selected. *)
Lemma lobby_update_selected_playlist_witness :
  subscribed OnLobbyUpdate readyWorld
  /\ selectedPlaylist (view (world
        (receive "ABCD" (LobbyUpdate (Lobby.make [ada] None)) readyWorld)))
     = Some roadTrip.
Proof.
  assert (Hsub : subscribed OnLobbyUpdate readyWorld)
    by listener_registered.
  split; [exact Hsub|].
  exact (proj1 (lobby_update_selected_playlist "ABCD" readyWorld
                  (Lobby.make [ada] None) Hsub) eq_refl).
Defined.

(** C6 at a concrete input: Bob toggles after a snapshot and an error
    event. *)
Lemma toggle_ready_emits_once_and_flips_witness :
  socket mountedWorld <> None
  /\ effects (handleReady "ABCD"
        (world (steps "ABCD" "Bob" false
                  (map Receive [LobbyUpdate (Lobby.make [ada; bob] None); Error "late"])
                  mountedWorld)))
     = [Emit (ToggleReady "ABCD")].
Proof.
  assert (Hs : socket mountedWorld <> None) by discriminate.
  split; [exact Hs|].
  exact (proj1 (toggle_ready_emits_once_and_flips "ABCD" "Bob" false mountedWorld
                  [LobbyUpdate (Lobby.make [ada; bob] None); Error "late"] Hs)).
Defined.

(** C7 at a concrete input: three entries, the second without [tracks], the
    third without name and artwork. *)
Lemma catalog_formatter_witness :
  formattedPlaylists [Some itemComplete; Some itemNoTracks; Some itemBare]
  = Some [ Playlist.make "a" "Alpha" 3 (Some "http://img/a");
           Playlist.make "c" "Unnamed Playlist" 0 None ].
Proof.
  destruct (catalog_formatter []) as (_ & _ & _ & Hthree).
  destruct (Hthree (Some itemNoTracks) itemComplete itemBare
              (Item.makeTracks (Some 3)) (Item.makeTracks None)
              eq_refl eq_refl eq_refl) as (_ & Hmiddle & _).
  exact Hmiddle.
Defined.



(** C9 at a concrete input. *)
Lemma error_event_is_fatal_witness :
  subscribed OnError readyWorld
  /\ occursIn [Alert "boom"; RouterPush "/"]
              (effects (receive "ABCD" (Error "boom") readyWorld)).
Proof.
  assert (Hsub : subscribed OnError readyWorld)
    by listener_registered.
  split; [exact Hsub|].
  exact (proj1 (error_event_is_fatal "ABCD" readyWorld "boom" Hsub)).
Defined.

(** C10, the claim as stated fails: the host starts from [readyWorld], the
    effect is cleaned up and runs again while the start is pending, and an
    [error] event arrives: only the listener of the mount effect is left,
    the user is notified once and [isStarting] stays [true]. *)
Lemma start_error_after_effect_rerun :
  isStarting (view (world
    (steps "ABCD" "Ada" true [ClickStart; Unmount; Mount] readyWorld))) = true
  /\ effects (receive "ABCD" (Error "boom")
       (world (steps "ABCD" "Ada" true [ClickStart; Unmount; Mount] readyWorld)))
     = [Alert "boom"; RouterPush "/"]
  /\ isStarting (view (world (receive "ABCD" (Error "boom")
       (world (steps "ABCD" "Ada" true [ClickStart; Unmount; Mount] readyWorld)))))
     = true.
Proof. repeat split; reflexivity. Qed.

(** C10 (as amended) at a concrete input: the host mounts, prepares the
    lobby, starts, a minute passes and a snapshot arrives, and then the
    server answers with an error. *)
Lemma start_error_also_aborts_session_witness :
  alerts (effects (receive "ABCD" (Error "boom")
    (world (steps "ABCD" "Ada" true
              (Mount :: [ AuthSuccess "token" (Response true (Some []));
                          SelectPlaylist roadTrip;
                          Receive (LobbyUpdate (Lobby.make [ada; bob] None));
                          ClickStart;
                          Elapse 60000;
                          Receive (LobbyUpdate (Lobby.make [ada; bob] None)) ])
              freshWorld))))
  = ["boom"; "Failed to start game. Please try again."].
Proof.
  assert (Hs : socket freshWorld <> None) by discriminate.
  assert (Ht : timersInert freshWorld) by constructor.
  exact (proj1 (proj2 (proj2 (proj2
           (start_error_also_aborts_session "ABCD" "Ada" true freshWorld
              [ AuthSuccess "token" (Response true (Some []));
                SelectPlaylist roadTrip;
                Receive (LobbyUpdate (Lobby.make [ada; bob] None));
                ClickStart;
                Elapse 60000;
                Receive (LobbyUpdate (Lobby.make [ada; bob] None)) ]
              "boom" Hs eq_refl Ht eq_refl eq_refl eq_refl))))).
Defined.

(** ** Further properties at concrete inputs *)

Lemma startingWorld_reached :
  world (steps "ABCD" "Ada" true (readyLobby ++ [ClickStart]) freshWorld) = startingWorld.
Proof. reflexivity. Qed.

(** X2 at [freshWorld]: Ada's effect runs, is cleaned up and runs again. *)
Lemma mount_cleanup_round_trip_witness :
  world (steps "ABCD" "Ada" true [Mount; Unmount] freshWorld) = freshWorld
  /\ emitted (effects (steps "ABCD" "Ada" true [Mount; Unmount; Mount] freshWorld))
     = [JoinLobby "ABCD" "Ada" true; JoinLobby "ABCD" "Ada" true].
Proof.
  destruct (mount_cleanup_round_trip "ABCD" "Ada" true freshWorld (mkSocket false [])
              eq_refl (Forall_nil _)) as (H1 & _ & H3).
  split; [exact H1 | exact H3].
Defined.

(** X3 at [freshWorld] with an empty player name. *)
Lemma mount_without_name_witness :
  emitted (effects (mountEffect "ABCD" "" false freshWorld)) = []
  /\ subscribed OnError (world (mountEffect "ABCD" "" false freshWorld)).
Proof.
  assert (Hs : socket freshWorld <> None) by discriminate.
  destruct (mount_without_name_listens_without_joining "ABCD" "" false freshWorld
              (or_introl eq_refl) Hs) as (H1 & _ & _ & H4).
  split; [exact H1 | exact H4].
Defined.

(** X5 at [mountedWorld]. *)
Lemma game_start_navigates_witness :
  receive "ABCD" (GameStart "pl1") mountedWorld
  = mkOutcome tt mountedWorld [RouterPush "/game/ABCD?playlist=pl1"].
Proof.
  exact (game_start_navigates "ABCD" mountedWorld mountedSocket "pl1" eq_refl eq_refl).
Defined.

Lemma restartWorld_reached :
  world (steps "ABCD" "Ada" true
           [ClickStart; Receive (Error "boom"); SelectPlaylist mixTape] readyWorld)
  = restartWorld.
Proof. reflexivity. Qed.


(** X7 at [readyWorld]: three snapshots, only the second carries a
    playlist. *)
Lemma selection_follows_last_carried_playlist_witness :
  selectedPlaylist (view (world
    (receiveLobbyUpdates "ABCD" "Ada" true
       [Lobby.make [ada] None; Lobby.make [ada] (Some mixTape); Lobby.make [ada; bob] None]
       readyWorld)))
  = Some mixTape.
Proof.
  assert (Hsub : subscribed OnLobbyUpdate readyWorld) by listener_registered.
  exact (proj1 (selection_follows_last_carried_playlist "ABCD" "Ada" true readyWorld
                  [Lobby.make [ada] None; Lobby.make [ada] (Some mixTape);
                   Lobby.make [ada; bob] None] Hsub)).
Defined.

(** X9 at a response of four entries, one without [tracks] and one
    [null]. *)
Lemma formatted_playlists_well_formed_witness :
  formattedPlaylists [Some itemComplete; Some itemNoTracks; None; Some itemBare]
  = Some [formatItem itemComplete (Item.makeTracks (Some 3));
          formatItem itemBare (Item.makeTracks None)]
  /\ Forall (fun p => Playlist.name p <> "" /\ Playlist.imageUrl p <> Some "")
            [formatItem itemComplete (Item.makeTracks (Some 3));
             formatItem itemBare (Item.makeTracks None)].
Proof.
  assert (H : formattedPlaylists [Some itemComplete; Some itemNoTracks; None; Some itemBare]
              = Some [formatItem itemComplete (Item.makeTracks (Some 3));
                      formatItem itemBare (Item.makeTracks None)])
    by reflexivity.
  split; [exact H|].
  exact (proj1 (proj2 (proj2 (formatted_playlists_well_formed _ _ H)))).
Defined.

(** X11 at the run that leads to [startingWorld]. *)
Lemma start_game_only_from_enabled_control_witness :
  In (StartGame "ABCD" "token")
     (emitted (effects (steps "ABCD" "Ada" true (readyLobby ++ [ClickStart]) freshWorld)))
  /\ exists before after,
       (readyLobby ++ [ClickStart] = before ++ ClickStart :: after)%list
       /\ allNonHostReady
            (players (view (world (steps "ABCD" "Ada" true before freshWorld)))).
Proof.
  assert (H : In (StartGame "ABCD" "token")
                 (emitted (effects (steps "ABCD" "Ada" true
                                      (readyLobby ++ [ClickStart]) freshWorld))))
    by (cbn; tauto).
  split; [exact H|].
  destruct (start_game_only_from_enabled_control "ABCD" "Ada" true _ _ _ _ H)
    as (before & after & Heq & _ & _ & _ & _ & _ & _ & Hr & _).
  exists before, after. split; [exact Heq | exact Hr].
Defined.

(** X12 at the same run, for the join message. *)
Lemma emitted_messages_belong_to_lobby_and_role_witness :
  In (JoinLobby "ABCD" "Ada" true)
     (emitted (effects (steps "ABCD" "Ada" true (readyLobby ++ [ClickStart]) freshWorld)))
  /\ lobbyOf (JoinLobby "ABCD" "Ada" true) = "ABCD".
Proof.
  assert (H : In (JoinLobby "ABCD" "Ada" true)
                 (emitted (effects (steps "ABCD" "Ada" true
                                      (readyLobby ++ [ClickStart]) freshWorld))))
    by (cbn; tauto).
  split; [exact H|].
  exact (proj1 (emitted_messages_belong_to_lobby_and_role "ABCD" "Ada" true _ _ _ H)).
Defined.

(** X13 at the run that leads to [startingWorld], one minute later. *)
Lemma time_passing_is_never_visible_witness :
  timersInert freshWorld
  /\ effects (elapse 60000
                (world (steps "ABCD" "Ada" true (readyLobby ++ [ClickStart]) freshWorld)))
     = [].
Proof.
  assert (H : timersInert freshWorld) by constructor.
  split; [exact H|].
  exact (proj1 (proj2 (time_passing_is_never_visible "ABCD" "Ada" true
                         (readyLobby ++ [ClickStart]) freshWorld 60000 H))).
Defined.

(** X14 at [startingWorld]: time passes, the success event arrives, the host
    clicks again, a snapshot arrives. *)
Lemma start_in_flight_until_error_witness :
  timersInert startingWorld
  /\ isStarting (view (world
       (steps "ABCD" "Ada" true
          [Elapse 5000; Receive GameStateUpdate; ClickStart;
           Receive (LobbyUpdate (Lobby.make [ada] None))]
          startingWorld)))
     = true.
Proof.
  assert (H : timersInert startingWorld) by (repeat constructor).
  split; [exact H|].
  exact (proj1 (start_in_flight_until_error "ABCD" "Ada" true
                  [Elapse 5000; Receive GameStateUpdate; ClickStart;
                   Receive (LobbyUpdate (Lobby.make [ada] None))]
                  startingWorld H eq_refl eq_refl)).
Defined.

(** X16 at [mountedWorld]: Bob clicks three times. *)
Lemma ready_clicks_compose_witness :
  effects (steps "ABCD" "Bob" false (repeat ClickReady 3) mountedWorld)
  = [Emit (ToggleReady "ABCD"); Emit (ToggleReady "ABCD"); Emit (ToggleReady "ABCD")]
  /\ isReady (view (world (steps "ABCD" "Bob" false (repeat ClickReady 3) mountedWorld)))
     = true.
Proof.
  assert (Hs : socket mountedWorld <> None) by discriminate.
  destruct (ready_clicks_compose "ABCD" "Bob" false 3 mountedWorld eq_refl Hs)
    as (He & Hr & _).
  split; [exact He | exact Hr].
Defined.

(** X17 at [mountedWorld]: Bob, whose socket id is p2, clicks once and then
    receives a snapshot in which he is ready. *)
Lemma ready_label_follows_snapshots_witness :
  readyButtonLabel (Some "p2")
    (players (view (world (steps "ABCD" "Bob" false (repeat ClickReady 1) mountedWorld))))
  = "Ready"
  /\ readyButtonLabel (Some "p2")
       (players (view (world
          (receive "ABCD" (LobbyUpdate (Lobby.make [ada; bob] None))
             (world (steps "ABCD" "Bob" false (repeat ClickReady 1) mountedWorld))))))
     = "Not Ready".
Proof.
  assert (Hsub : subscribed OnLobbyUpdate mountedWorld) by listener_registered.
  destruct (ready_label_follows_snapshots "ABCD" "Bob" false (Some "p2") 1
              (Lobby.make [ada; bob] None) mountedWorld eq_refl Hsub) as (H1 & H2).
  split; [exact H1 | exact H2].
Defined.
